(** * A Bitcask-style key-value store: the engine and protocol of server.py

    Shallow embedding of [KeyValueStore] and of the request handler, and the
    properties of the storage engine: record codec, recovery replay,
    compaction, the counters, range reads and the wire responses. *)

From Stdlib Require Import Arith NArith List Strings.String Strings.Ascii Strings.Byte.
From Stdlib Require Import Lia Bool Sorting.Mergesort Sorting.Sorted Permutation.
From Equations Require Import Equations.
Import ListNotations.

Local Open Scope string_scope.
Local Open Scope N_scope.
Local Open Scope list_scope.

(** ** Python values

    A [bytes] object is a list of bytes.  A [str] is represented by its UTF-8
    encoding, one [ascii] per byte, so that [encode] is the identity on the
    underlying bytes, [decode] succeeds exactly on well-formed UTF-8, and the
    ordering of [str] (by code point) is the bytewise lexicographic ordering
    [String.leb].  Integers that the code never makes negative (sizes, file
    offsets, timestamps read from the clock) are in [N]. *)

Definition bytes := list byte.
Definition str := string.

Definition len (b : bytes) : N := N.of_nat (List.length b).

(** The exceptions the engine and the handler can raise. *)
Inductive exn : Type :=
| StructError          (* struct.error, from pack or unpack *)
| UnicodeDecodeError   (* bytes.decode('utf-8') on ill-formed input *)
| FileNotFoundError    (* open(..., 'rb') on a missing file *)
| KeyError             (* self.keys[key] on a key that is not there *)
| IndexError           (* args[0] on an empty list *)
| ValueError.          (* unpacking a 1-element list into two names *)

Inductive res (A : Type) : Type :=
| Ret (a : A)
| Raise (e : exn).
Arguments Ret {A} a.
Arguments Raise {A} e.

Definition in_range (lo hi : N) (b : byte) : bool :=
  (lo <=? Byte.to_N b) && (Byte.to_N b <=? hi).

Definition continuation (b : byte) : bool := in_range 128 191 b.

(** Well-formed UTF-8 as the strict codec accepts it: shortest form only, no
    surrogates, nothing above U+10FFFF. *)
Fixpoint utf8_valid (bs : bytes) : bool :=
  match bs with
  | [] => true
  | b0 :: t0 =>
    if in_range 0 127 b0 then utf8_valid t0
    else
      match t0 with
      | [] => false
      | b1 :: t1 =>
        if in_range 194 223 b0 then continuation b1 && utf8_valid t1
        else
          match t1 with
          | [] => false
          | b2 :: t2 =>
            if in_range 224 239 b0 then
              (if in_range 224 224 b0 then in_range 160 191 b1
               else if in_range 237 237 b0 then in_range 128 159 b1
               else continuation b1)
              && continuation b2 && utf8_valid t2
            else
              match t2 with
              | [] => false
              | b3 :: t3 =>
                if in_range 240 244 b0 then
                  (if in_range 240 240 b0 then in_range 144 191 b1
                   else if in_range 244 244 b0 then in_range 128 143 b1
                   else continuation b1)
                  && continuation b2 && continuation b3 && utf8_valid t3
                else false
              end
          end
      end
  end.

(** [s.encode('utf-8')] *)
Definition encode (s : str) : bytes := list_byte_of_string s.

(** [b.decode('utf-8')] *)
Definition decode (b : bytes) : res str :=
  if utf8_valid b then Ret (string_of_list_byte b) else Raise UnicodeDecodeError.

(** A [str] of the model stands for a Python string when its bytes are
    well-formed UTF-8. *)
Definition wf_str (s : str) : Prop := utf8_valid (encode s) = true.

(** ** struct.pack / struct.unpack with format "!QII" *)

Definition byte_of_N (n : N) : byte :=
  match Byte.of_N n with Some b => b | None => x00 end.

(** The [w] big-endian bytes of [n]. *)
Fixpoint be_bytes (w : nat) (n : N) : bytes :=
  match w with
  | O => []
  | S w' => be_bytes w' (n / 256) ++ [byte_of_N (n mod 256)]
  end.

Definition be_int (bs : bytes) : N :=
  fold_left (fun acc b => acc * 256 + Byte.to_N b) bs 0.

Definition struct_pack (timestamp key_size value_size : N) : res bytes :=
  if (timestamp <? 2 ^ 64) && (key_size <? 2 ^ 32) && (value_size <? 2 ^ 32)
  then Ret (be_bytes 8 timestamp ++ be_bytes 4 key_size ++ be_bytes 4 value_size)
  else Raise StructError.

Definition struct_unpack (header : bytes) : res (N * N * N) :=
  if len header =? 16
  then Ret (be_int (firstn 8 header),
            be_int (firstn 4 (skipn 8 header)),
            be_int (skipn 12 header))
  else Raise StructError.

(** ** Files

    A file opened for reading is its content and the current position.
    [f.read(n)] returns at most [n] bytes and moves the position by what it
    returned; seeking past the end is allowed and reads nothing there. *)

Record reader : Type := { r_data : bytes; r_pos : N }.

Definition f_open (data : bytes) : reader := {| r_data := data; r_pos := 0 |}.
Definition f_tell (f : reader) : N := r_pos f.
Definition f_seek (p : N) (f : reader) : reader :=
  {| r_data := r_data f; r_pos := p |}.
Definition f_read (n : N) (f : reader) : bytes * reader :=
  let chunk := firstn (N.to_nat n) (skipn (N.to_nat (r_pos f)) (r_data f)) in
  (chunk, {| r_data := r_data f; r_pos := r_pos f + len chunk |}).

(** [f.seek(pos); f.read(n)] on the content [data]. *)
Definition pread (data : bytes) (pos n : N) : bytes :=
  fst (f_read n (f_seek pos (f_open data))).

(** ** The index: an OrderedDict from key to (file_position, entry_size, timestamp)

    An association list in insertion order with at most one binding per key.
    Assigning to a key that is present replaces its value in place; a new key
    goes to the end. *)

Definition entry := (N * N * N)%type.
Definition index := list (str * entry).

Fixpoint dict_get (k : str) (d : index) : option entry :=
  match d with
  | [] => None
  | (k', e) :: d' => if String.eqb k' k then Some e else dict_get k d'
  end.

Definition dict_mem (k : str) (d : index) : bool :=
  match dict_get k d with Some _ => true | None => false end.

Fixpoint dict_set (k : str) (e : entry) (d : index) : index :=
  match d with
  | [] => [(k, e)]
  | (k', e') :: d' =>
    if String.eqb k' k then (k', e) :: d' else (k', e') :: dict_set k e d'
  end.

Definition dict_keys (d : index) : list str := map fst d.

(** ** The engine state

    [disk] is the content of the file at [self.data_file] ([None] while the
    path does not exist); [keys], [data_size] and [deleted_size] are the
    attributes of the [KeyValueStore] object.  [trace] records, in order, the
    engine's trigger tests, compaction runs and record appends; it is not an
    attribute of the object and no operation reads it. *)

Inductive event : Type :=
| EvCheck (fired : bool)   (* the test "data_size > 0 and deleted/data > threshold" *)
| EvCompact                (* a run of _compact *)
| EvAppend (pos : N).      (* one record written at the end of the data file *)

Record store : Type := mkStore {
  disk : option bytes;
  keys : index;
  data_size : N;
  deleted_size : N;
  trace : list event
}.

(** Operations run on the store and either return or raise; the store they
    leave behind is kept in both cases. *)
Definition M (A : Type) : Type := store -> store * res A.

Definition ret {A} (a : A) : M A := fun s => (s, Ret a).
Definition bind {A B} (m : M A) (k : A -> M B) : M B :=
  fun s => match m s with
           | (s', Ret a) => k a s'
           | (s', Raise e) => (s', Raise e)
           end.
Definition lift {A} (r : res A) : M A := fun s => (s, r).

Declare Scope engine_scope.
Delimit Scope engine_scope with engine.
Notation "x <- m ;; k" := (bind m (fun x => k))
  (at level 61, m at next level, right associativity) : engine_scope.
Notation "m ;;; k" := (bind m (fun _ => k))
  (at level 61, right associativity) : engine_scope.
Local Open Scope engine_scope.

Definition emit (e : event) : M unit := fun s =>
  (mkStore (disk s) (keys s) (data_size s) (deleted_size s) (trace s ++ [e]), Ret tt).

(** ** Recovery: [_load_from_disk] (lines 45-81) *)

(** What one pass through the body of the [while True] loop does. *)
Inductive loop_step : Type :=
| Break
| Continue (f : reader) (s : store)
| Fail (e : exn).

(** The loop body, lines 63-80. *)
Definition load_entry (f : reader) (s : store) : loop_step :=
  let pos := f_tell f in
  let '(header, f1) := f_read 16 f in
  match header with
  | [] => Break
  | _ :: _ =>
    match struct_unpack header with
    | Raise e => Fail e
    | Ret (timestamp, key_size, value_size) =>
      let '(key_bytes, f2) := f_read key_size f1 in
      match decode key_bytes with
      | Raise e => Fail e
      | Ret key =>
        let '(value, f3) := f_read value_size f2 in
        let entry_size := 16 + key_size + value_size in
        let deleted :=
          match dict_get key (keys s) with
          | Some (old_pos, old_size, _) => deleted_size s + old_size
          | None => deleted_size s
          end in
        Continue f3
          (mkStore (disk s) (dict_set key (pos, entry_size, timestamp) (keys s))
                   (data_size s + entry_size) deleted (trace s))
      end
    end
  end.

Definition remaining (f : reader) : nat :=
  (List.length (r_data f) - N.to_nat (r_pos f))%nat.

Equations? load_loop (f : reader) (s : store) : store * res unit
  by wf (remaining f) lt :=
  load_loop f s with Equations.Prop.Logic.inspect (load_entry f s) := {
    | exist _ Break _ => (s, Ret tt)
    | exist _ (Fail e) _ => (s, Raise e)
    | exist _ (Continue f' s') H => load_loop f' s' }.
Proof.
  assert (HA : forall n g,
             r_data (snd (f_read n g)) = r_data g /\
             r_pos (snd (f_read n g)) = r_pos g + len (fst (f_read n g)) /\
             len (fst (f_read n g)) =
               N.of_nat (Nat.min (N.to_nat n)
                           (List.length (r_data g) - N.to_nat (r_pos g)))).
  { intros n g. unfold f_read, len. cbn [fst snd r_data r_pos].
    rewrite length_firstn, length_skipn. auto. }
  unfold load_entry in H.
  destruct (HA 16 f) as (D1 & P1 & L1).
  destruct (f_read 16 f) as [header f1].
  destruct header as [|h0 header]; [discriminate|].
  destruct (struct_unpack (h0 :: header)) as [[[ts ks] vs]|e0] eqn:EU;
    [|discriminate].
  destruct (HA ks f1) as (D2 & P2 & _).
  destruct (f_read ks f1) as [kb f2].
  destruct (decode kb); [|discriminate].
  destruct (HA vs f2) as (D3 & P3 & _).
  destruct (f_read vs f2) as [vb f3].
  injection H as <- _.
  unfold struct_unpack in EU.
  destruct (len (h0 :: header) =? 16) eqn:EL; [|discriminate].
  apply N.eqb_eq in EL.
  cbn [fst snd] in *. unfold remaining.
  rewrite D3, D2, D1, P3, P2, P1. lia.
Qed.

Definition _load_from_disk : M unit := fun s =>
  let s0 := mkStore (disk s) [] 0 0 (trace s) in
  match disk s with
  | None => (s0, Ret tt)
  | Some data => load_loop (f_open data) s0
  end.

(** [KeyValueStore()] on a disk whose data file holds [d] ([None] when the
    path does not exist): lines 37-43. *)
Definition __init__ (d : option bytes) : store * res unit :=
  _load_from_disk (mkStore d [] 0 0 []).

(** ** Compaction: [_compact] (lines 83-105) *)

(** One pass through the [for] loop, lines 93-100: [new_f] is what has been
    written to the temporary file so far. *)
Definition compact_entry (old_f : bytes) (acc : bytes * index)
    (item : str * entry) : bytes * index :=
  let '(new_f, ks) := acc in
  let '(key, (pos, size, timestamp)) := item in
  let entry_data := pread old_f pos size in
  let new_pos := len new_f in
  (new_f ++ entry_data, dict_set key (new_pos, size, timestamp) ks).

(** The loop runs over the items of [self.keys] while assigning to the key it
    is at; that changes no other item and not the order, so the items are
    those of the index as it was when the loop started. *)
Definition _compact : M unit := fun s =>
  match disk s with
  | None => (s, Raise FileNotFoundError)
  | Some old_f =>
    let '(new_f, ks) := fold_left (compact_entry old_f) (keys s) ([], keys s) in
    (mkStore (Some new_f) ks (len new_f) 0 (trace s ++ [EvCompact]), Ret tt)
  end.

(** [self.data_size > 0 and self.deleted_size / self.data_size > 0.5]: the
    quotient is above one half exactly when twice the garbage exceeds the
    file size (the float quotient agrees with the exact one for sizes below
    2^53). *)
Definition compaction_due (s : store) : bool :=
  (0 <? data_size s) && (data_size s <? 2 * deleted_size s).

(** The [if ...: self._compact()] of lines 111-112, 197-198 and 261-262. *)
Definition consider_compaction : M unit := fun s =>
  match emit (EvCheck (compaction_due s)) s with
  | (s1, _) => if compaction_due s then _compact s1 else (s1, Ret tt)
  end.

(** ** Appending a record and updating the index *)

(** [with open(self.data_file, 'ab') as f: pos = f.tell(); f.write(...)]:
    append mode creates a missing file and writes at the end. *)
Definition append_record (data : bytes) : M N := fun s =>
  let old := match disk s with Some d => d | None => [] end in
  let pos := len old in
  (mkStore (Some (old ++ data)) (keys s) (data_size s) (deleted_size s)
           (trace s ++ [EvAppend pos]), Ret pos).

(** Lines 133-139 (and 217-222, 253-258). *)
Definition index_update (key : str) (pos entry_size timestamp : N) : M unit :=
  fun s =>
    let deleted :=
      match dict_get key (keys s) with
      | Some (old_pos, old_size, _) => deleted_size s + old_size
      | None => deleted_size s
      end in
    (mkStore (disk s) (dict_set key (pos, entry_size, timestamp) (keys s))
             (data_size s + entry_size) deleted (trace s), Ret tt).

(** Encoding one record, writing it and indexing it: lines 114-139.  [now] is
    what [int(time.time())] returns. *)
Definition write_entry (now : N) (key value : str) : M unit :=
  let value_bytes := encode value in
  let key_bytes := encode key in
  let timestamp := now in
  let key_size := len key_bytes in
  let value_size := len value_bytes in
  header <- lift (struct_pack timestamp key_size value_size) ;;
  pos <- append_record (header ++ key_bytes ++ value_bytes) ;;
  let entry_size := 16 + key_size + value_size in
  index_update key pos entry_size timestamp.

(** ** [put] (lines 107-140) *)
Definition put (now : N) (key value : str) : M bool :=
  consider_compaction ;;;
  write_entry now key value ;;;
  ret true.

(** ** [read] (lines 142-161) *)

(** Lines 151-156: the value of the record at [pos]. *)
Definition read_value (data : bytes) (pos : N) : res str :=
  let header := pread data pos 16 in
  match struct_unpack header with
  | Raise e => Raise e
  | Ret (timestamp, key_size, value_size) =>
    decode (pread data (pos + 16 + key_size) value_size)
  end.

Definition read (key : str) : M (option str) := fun s =>
  match dict_get key (keys s) with
  | None => (s, Ret None)
  | Some (pos, entry_size, _) =>
    match disk s with
    | None => (s, Raise FileNotFoundError)
    | Some data =>
      match read_value data pos with
      | Raise e => (s, Raise e)
      | Ret value =>
        if String.eqb value "DELETED" then (s, Ret None) else (s, Ret (Some value))
      end
    end
  end.

(** ** [read_key_range] (lines 163-189) *)

Module StrOrder <: Orders.TotalLeBool.
Definition t := str.
Definition leb : t -> t -> bool := String.leb.
Lemma leb_total : forall x y, leb x y = true \/ leb y x = true.
Proof. exact String.leb_total. Qed.
End StrOrder.

Module StrSort := Sort StrOrder.

(** [sorted(...)] on a list of strings. *)
Definition sorted (l : list str) : list str := StrSort.sort l.

(** Lines 174-177: the keys of the range with their positions and sizes. *)
Fixpoint select_range (start_key end_key : str) (d : index)
    (sorted_keys : list str) : res (list (str * N * N)) :=
  match sorted_keys with
  | [] => Ret []
  | key :: rest =>
    if String.leb start_key key && String.leb key end_key then
      match dict_get key d with
      | None => Raise KeyError
      | Some (pos, size, _) =>
        match select_range start_key end_key d rest with
        | Raise e => Raise e
        | Ret keys_to_read => Ret ((key, pos, size) :: keys_to_read)
        end
      end
    else select_range start_key end_key d rest
  end.

(** Lines 181-188: read each selected record and keep the live ones. *)
Fixpoint read_entries (data : bytes) (keys_to_read : list (str * N * N))
    : res (list (str * str)) :=
  match keys_to_read with
  | [] => Ret []
  | (key, pos, size) :: rest =>
    match read_value data pos with
    | Raise e => Raise e
    | Ret value =>
      match read_entries data rest with
      | Raise e => Raise e
      | Ret result =>
        Ret (if String.eqb value "DELETED" then result else (key, value) :: result)
      end
    end
  end.

Definition read_key_range (start_key end_key : str) : M (list (str * str)) :=
  fun s =>
    let sorted_keys := sorted (dict_keys (keys s)) in
    match select_range start_key end_key (keys s) sorted_keys with
    | Raise e => (s, Raise e)
    | Ret keys_to_read =>
      match disk s with
      | None => (s, Raise FileNotFoundError)
      | Some data => (s, read_entries data keys_to_read)
      end
    end.

(** ** [batch_put] (lines 191-223)

    [items] are the pairs of [items.items()] in order; [clock i] is what
    [int(time.time())] returns while the [i]-th pair is handled. *)

(** [open(self.data_file, 'ab')], which creates a missing file. *)
Definition open_append : M unit := fun s =>
  (mkStore (Some (match disk s with Some d => d | None => [] end))
           (keys s) (data_size s) (deleted_size s) (trace s), Ret tt).

Fixpoint batch_loop (clock : nat -> N) (i : nat) (items : list (str * str))
    : M unit :=
  match items with
  | [] => ret tt
  | (key, value) :: rest =>
    write_entry (clock i) key value ;;;
    batch_loop clock (S i) rest
  end.

Definition batch_put (clock : nat -> N) (items : list (str * str)) : M bool :=
  consider_compaction ;;;
  open_append ;;;
  batch_loop clock 0 items ;;;
  ret true.

(** ** [delete] (lines 225-264) *)
Definition delete (now : N) (key : str) : M bool := fun s =>
  if negb (dict_mem key (keys s)) then (s, Ret false)
  else
    (write_entry now key "DELETED" ;;;
     consider_compaction ;;;
     ret true) s.

(** ** The request handler: [ThreadedTCPRequestHandler.handle] (lines 268-312) *)

Definition nl : str := String "010"%char "".

Definition chr (n : N) : ascii := ascii_of_N n.
Definition str_of (codes : list N) : str :=
  fold_right (fun n s => String (chr n) s) "" codes.

(** The UTF-8 encodings of the characters [str.strip()] removes: the ASCII
    controls 9-13 and 28-31, the space, and U+0085, U+00A0, U+1680,
    U+2000-200A, U+2028, U+2029, U+202F, U+205F, U+3000. *)
Definition whitespace : list str :=
  map (fun n => str_of [n]) [9; 10; 11; 12; 13; 28; 29; 30; 31; 32] ++
  [str_of [194; 133]; str_of [194; 160]; str_of [225; 154; 128]] ++
  map (fun n => str_of [226; 128; n])
      [128; 129; 130; 131; 132; 133; 134; 135; 136; 137; 138; 168; 169; 175] ++
  [str_of [226; 129; 159]; str_of [227; 128; 128]].

Fixpoint str_rev_onto (s acc : str) : str :=
  match s with
  | EmptyString => acc
  | String c s' => str_rev_onto s' (String c acc)
  end.
Definition str_rev (s : str) : str := str_rev_onto s "".

(** [drop_prefix p s] is what follows [p] in [s] when [s] starts with [p]. *)
Fixpoint drop_prefix (p s : str) : option str :=
  match p, s with
  | EmptyString, _ => Some s
  | String a p', String b s' => if Ascii.eqb a b then drop_prefix p' s' else None
  | String _ _, EmptyString => None
  end.

Definition drop_first_of (ps : list str) (s : str) : option str :=
  fold_right (fun p r => match drop_prefix p s with Some t => Some t | None => r end)
             None ps.

Fixpoint strip_left (fuel : nat) (ps : list str) (s : str) : str :=
  match fuel with
  | O => s
  | S fuel' =>
    match drop_first_of ps s with
    | Some t => strip_left fuel' ps t
    | None => s
    end
  end.

(** [s.strip()] *)
Definition strip (s : str) : str :=
  let l := strip_left (String.length s) whitespace s in
  str_rev (strip_left (String.length l) (map str_rev whitespace) (str_rev l)).

(** [s.split(' ', 1)]: at most one split, at the first space. *)
Fixpoint cut_at_space (s : str) : option (str * str) :=
  match s with
  | EmptyString => None
  | String c s' =>
    if Ascii.eqb c " "%char then Some ("", s')
    else match cut_at_space s' with
         | Some (a, b) => Some (String c a, b)
         | None => None
         end
  end.

Definition split_once (s : str) : list str :=
  match cut_at_space s with
  | Some (a, b) => [a; b]
  | None => [s]
  end.

(** What the handler sends back, and whether it asked the server to stop. *)
Record reply : Type := mkReply { sent : str; stop : bool }.

Section Handler.

(** [json.dumps] on a list of pairs and [str(e)] on an exception are the
    interpreter's; the handler only concatenates what they return. *)
Variable json_dumps : list (str * str) -> str.
Variable exn_text : exn -> str.

(** [args[0]] *)
Definition first_arg (args : list str) : res str :=
  match args with
  | [] => Raise IndexError
  | a :: _ => Ret a
  end.

(** [a, b = l] *)
Definition unpack2 (l : list str) : res (str * str) :=
  match l with
  | [a; b] => Ret (a, b)
  | _ => Raise ValueError
  end.

(** The body of the [try], lines 284-308; the response starts as [""]. *)
Definition dispatch (now : N) (command : str) (args : list str) : M str :=
  if String.eqb command "PUT" then
    a <- lift (first_arg args) ;;
    kv <- lift (unpack2 (split_once a)) ;;
    put now (fst kv) (snd kv) ;;;
    ret ("OK" ++ nl)%string
  else if String.eqb command "READ" then
    key <- lift (first_arg args) ;;
    value <- read key ;;
    ret (match value with
         | Some v => ("OK " ++ v ++ nl)%string
         | None => ("OK NULL" ++ nl)%string
         end)
  else if String.eqb command "DELETE" then
    key <- lift (first_arg args) ;;
    found <- delete now key ;;
    ret (if found then ("OK" ++ nl)%string
         else ("ERROR Key not found" ++ nl)%string)
  else if String.eqb command "READRANGE" then
    a <- lift (first_arg args) ;;
    se <- lift (unpack2 (split_once a)) ;;
    results <- read_key_range (fst se) (snd se) ;;
    ret ("OK " ++ json_dumps results ++ nl)%string
  else if String.eqb command "BATCHPUT" then
    ret ""
  else
    ret ("ERROR Invalid command" ++ nl)%string.

(** [received] is the text of [self.request.recv(1024).decode('utf-8')]. *)
Definition handle (now : N) (received : str) (s : store) : store * reply :=
  let data := strip received in
  if String.eqb data "SHUTDOWN" then (s, mkReply ("OK" ++ nl)%string true)
  else
    match split_once data with
    | [] => (s, mkReply "" false)   (* split returns at least one token *)
    | command :: args =>
      match dispatch now command args s with
      | (s', Ret response) => (s', mkReply response false)
      | (s', Raise e) => (s', mkReply ("ERROR " ++ exn_text e ++ nl)%string false)
      end
    end.

End Handler.

(** ** Log records *)

(** A record of the log: timestamp, key, value. *)
Definition record := (N * str * str)%type.

Definition rec_ts (r : record) : N := fst (fst r).
Definition rec_key (r : record) : str := snd (fst r).
Definition rec_value (r : record) : str := snd r.

(** 16 header bytes, then the key, then the value. *)
Definition rec_size (r : record) : N :=
  16 + len (encode (rec_key r)) + len (encode (rec_value r)).

Definition encode_rec (r : record) : bytes :=
  be_bytes 8 (rec_ts r) ++ be_bytes 4 (len (encode (rec_key r))) ++
  be_bytes 4 (len (encode (rec_value r))) ++
  encode (rec_key r) ++ encode (rec_value r).

(** The header fields of a record for [key] and [value] written at [now]
    fit: the condition under which [struct.pack] returns. *)
Definition fits (now : N) (key value : str) : Prop :=
  now < 2 ^ 64 /\ len (encode key) < 2 ^ 32 /\ len (encode value) < 2 ^ 32.

(** The header fields fit their widths and the strings are Python strings. *)
Definition wf_rec (r : record) : Prop :=
  rec_ts r < 2 ^ 64 /\
  len (encode (rec_key r)) < 2 ^ 32 /\
  len (encode (rec_value r)) < 2 ^ 32 /\
  wf_str (rec_key r) /\ wf_str (rec_value r).

Definition encode_log (recs : list record) : bytes :=
  flat_map encode_rec recs.

Definition log_size (recs : list record) : N :=
  fold_right (fun r n => rec_size r + n) 0 recs.

(** The index entries of a log laid out from offset [off]. *)
Fixpoint layout (recs : list record) (off : N) : index :=
  match recs with
  | [] => []
  | r :: rest =>
    (rec_key r, (off, rec_size r, rec_ts r)) :: layout rest (off + rec_size r)
  end.

(** The last record with key [k]. *)
Fixpoint last_record (k : str) (recs : list record) : option record :=
  match recs with
  | [] => None
  | r :: rest =>
    match last_record k rest with
    | Some x => Some x
    | None => if String.eqb (rec_key r) k then Some r else None
    end
  end.

(** The value of the last record with key [k]. *)
Fixpoint last_value (k : str) (recs : list record) : option str :=
  match recs with
  | [] => None
  | r :: rest =>
    match last_value k rest with
    | Some v => Some v
    | None => if String.eqb (rec_key r) k then Some (rec_value r) else None
    end
  end.

(** The entry of the last record with key [k] in a log that starts at offset
    [off]. *)
Fixpoint last_entry (k : str) (recs : list record) (off : N) : option entry :=
  match recs with
  | [] => None
  | r :: rest =>
    match last_entry k rest (off + rec_size r) with
    | Some e => Some e
    | None =>
      if String.eqb (rec_key r) k then Some (off, rec_size r, rec_ts r) else None
    end
  end.

(** The size of the last record of [k], zero when there is none. *)
Definition prev_size (k : str) (recs : list record) : N :=
  match last_record k recs with
  | Some x => rec_size x
  | None => 0
  end.

(** Two logs in which every key has the same last record. *)
Definition view_eq (a b : list record) : Prop :=
  forall k, last_record k a = last_record k b.

(** ** Replaying a log *)

(** The index and the two counters after one more record of the log, as
    recovery and the write path both compute them. *)
Definition replay_step (st : index * N * N) (r : record) : index * N * N :=
  let '(ks, data, deleted) := st in
  (dict_set (rec_key r) (data, rec_size r, rec_ts r) ks,
   data + rec_size r,
   match dict_get (rec_key r) ks with
   | Some (_, old_size, _) => deleted + old_size
   | None => deleted
   end).

Definition replay (recs : list record) : index * N * N :=
  fold_left replay_step recs ([], 0, 0).

(** Store attributes as a triple, to compare with [replay]. *)
Definition fields (s : store) : index * N * N :=
  (keys s, data_size s, deleted_size s).

Definition with_fields (s : store) (st : index * N * N) : store :=
  let '(ks, data, deleted) := st in
  mkStore (disk s) ks data deleted (trace s).

(** ** The states the engine can be in *)

(** The store before anything was written: no data file, empty index. *)
Definition fresh : store := mkStore None [] 0 0 [].

(** The bytes of the data file, none while it does not exist. *)
Definition log_bytes (s : store) : bytes :=
  match disk s with Some d => d | None => [] end.

(** [s] is the engine state over the log [recs]: the data file holds exactly
    these records and the index and counters are what replaying them gives. *)
Definition Rep (recs : list record) (s : store) : Prop :=
  Forall wf_rec recs /\
  log_bytes s = encode_log recs /\
  (keys s, data_size s, deleted_size s) = replay recs.

Definition consistent (s : store) : Prop := exists recs, Rep recs s.

(** The data file holds the records [recs] and the index maps every key to
    the entry of its last record, in some order. *)
Definition Indexed (recs : list record) (s : store) : Prop :=
  Forall wf_rec recs /\
  log_bytes s = encode_log recs /\
  NoDup (dict_keys (keys s)) /\
  forall k, dict_get k (keys s) = last_entry k recs 0.

(** The invariants of the data model.  The log is a sequence of well-formed
    records and every key of the index has the entry of its last record, so
    that every entry references a record of the log that decodes (1, 2);
    [data_size] is the byte length of the log, zero while the file does not
    exist (3); and [deleted_size] does not exceed it (4). *)
Definition invariants (s : store) : Prop :=
  exists recs,
    Indexed recs s /\
    data_size s = len (log_bytes s) /\
    deleted_size s <= data_size s.

(** The value bytes the index entry of [k] points at, tombstones included. *)
Definition stored_value (k : str) (s : store) : option str :=
  match dict_get k (keys s), disk s with
  | Some (pos, _, _), Some data =>
    match read_value data pos with
    | Ret v => Some v
    | Raise _ => None
    end
  | _, _ => None
  end.

(** A stored value as [read] shows it: the tombstone reads as nothing. *)
Definition visible (v : option str) : option str :=
  match v with
  | Some x => if String.eqb x "DELETED" then None else Some x
  | None => None
  end.

(** The key is in the index and its record is not a tombstone. *)
Definition live (s : store) (k : str) : bool :=
  match visible (stored_value k s) with
  | Some _ => true
  | None => false
  end.

Definition live_keys (s : store) : list str :=
  filter (live s) (dict_keys (keys s)).

(** The data file is a sequence of records, one for each of the keys [ks]
    and no other. *)
Definition one_record_per (ks : list str) (s : store) : Prop :=
  exists recs,
    Forall wf_rec recs /\
    disk s = Some (encode_log recs) /\
    Permutation (map rec_key recs) ks.

(** What an index entry must point at for compaction to copy a record. *)
Definition points_at (old_f : bytes) (recs : list record)
    (item : str * entry) : Prop :=
  let '(k, (pos, size, ts)) := item in
  exists r, last_record k recs = Some r /\ wf_rec r /\ rec_key r = k /\
            size = rec_size r /\ ts = rec_ts r /\
            pread old_f pos size = encode_rec r.

(** The records a compaction keeps: for each key of the index, in index
    order, the last record of that key. *)
Definition compacted (recs : list record) (idx : index) : list record :=
  flat_map (fun item => match last_record (fst item) recs with
                        | Some r => [r]
                        | None => []
                        end) idx.

(** ** Garbage *)

(** Some entry of the index has [off] as its file position. *)
Definition referenced (idx : index) (off : N) : bool :=
  existsb (fun item => fst (fst (snd item)) =? off) idx.

(** The bytes of the records of a log, laid out from [off], whose offset no
    entry of the index references. *)
Fixpoint unreferenced_bytes (recs : list record) (off : N) (idx : index) : N :=
  match recs with
  | [] => 0
  | r :: rest =>
    (if referenced idx off then 0 else rec_size r) +
    unreferenced_bytes rest (off + rec_size r) idx
  end.

(** The bytes of the records that a later record of the same key follows. *)
Fixpoint superseded (recs : list record) : N :=
  match recs with
  | [] => 0
  | r :: rest =>
    (if existsb (fun x => String.eqb (rec_key x) (rec_key r)) rest
     then rec_size r else 0) + superseded rest
  end.

(** ** What a range read is to return *)

(** On the sorted keys [l]: the keys of the range whose value is not the
    tombstone, paired with their values. *)
Definition range_result (start_key end_key : str) (s : store) (l : list str)
    : list (str * str) :=
  flat_map (fun k =>
              if String.leb start_key k && String.leb k end_key then
                match visible (stored_value k s) with
                | Some v => [(k, v)]
                | None => []
                end
              else []) l.

(** ** Operation sequences *)

Inductive op : Type :=
| Put (now : N) (key value : str)
| Delete (now : N) (key : str)
| BatchPut (clock : nat -> N) (items : list (str * str))
| Reopen.

(** Closing the store and constructing it again over the same data file:
    the constructor starts from the empty attributes that [_load_from_disk]
    resets to anyway. *)
Definition reopen : M unit := _load_from_disk.

Definition run_op (o : op) (s : store) : store :=
  match o with
  | Put now key value => fst (put now key value s)
  | Delete now key => fst (delete now key s)
  | BatchPut clock items => fst (batch_put clock items s)
  | Reopen => fst (reopen s)
  end.

Definition run_ops (ops : list op) (s : store) : store :=
  fold_left (fun s o => run_op o s) ops s.

(** The strings of an operation are Python strings. *)
Definition typed_op (o : op) : Prop :=
  match o with
  | Put _ key value => wf_str key /\ wf_str value
  | Delete _ key => wf_str key
  | BatchPut _ items => Forall (fun kv => wf_str (fst kv) /\ wf_str (snd kv)) items
  | Reopen => True
  end.

(** A put or delete whose strings are Python strings and whose header
    fields fit, so that the engine performs it. *)
Definition applied (o : op) : Prop :=
  match o with
  | Put now key value => wf_str key /\ wf_str value /\ fits now key value
  | Delete now key => wf_str key /\ now < 2 ^ 64
  | _ => False
  end.

(** The records an operation may append. *)
Definition writes (o : op) (r : record) : Prop :=
  match o with
  | Put now key value => r = (now, key, value)
  | Delete now key => r = (now, key, "DELETED")
  | BatchPut _ items => In (rec_key r, rec_value r) items
  | Reopen => False
  end.

(** The operation leaves key [k] alone: it neither puts nor deletes it. *)
Definition leaves (k : str) (o : op) : Prop :=
  match o with
  | Put _ key _ => key <> k
  | Delete _ key => key <> k
  | BatchPut _ items => ~ In k (map fst items)
  | Reopen => True
  end.

(** The operation neither puts the key nor has it among the items of a
    batch; it may delete it. *)
Definition no_put (k : str) (o : op) : Prop :=
  match o with
  | Put _ key _ => key <> k
  | Delete _ _ => True
  | BatchPut _ items => ~ In k (map fst items)
  | Reopen => True
  end.

(** ** The in-memory model that recovery is compared with

    Last writer wins per key and deletes hide: a dictionary from key to the
    value last put, or to [None] once the key has been deleted.  Deleting a
    key that was never put changes nothing. *)
Definition model := list (str * option str).

Fixpoint model_get (k : str) (m : model) : option (option str) :=
  match m with
  | [] => None
  | (k', x) :: m' => if String.eqb k' k then Some x else model_get k m'
  end.

Fixpoint model_set (k : str) (x : option str) (m : model) : model :=
  match m with
  | [] => [(k, x)]
  | (k', x') :: m' =>
    if String.eqb k' k then (k', x) :: m' else (k', x') :: model_set k x m'
  end.

Definition model_step (m : model) (o : op) : model :=
  match o with
  | Put _ key value => model_set key (Some value) m
  | Delete _ key =>
    match model_get key m with
    | Some _ => model_set key None m
    | None => m
    end
  | _ => m
  end.

Definition model_apply (ops : list op) : model := fold_left model_step ops [].

(** The value bytes of the record the model expects for a key: the value
    last put, or the tombstone. *)
Definition model_value (x : option str) : str :=
  match x with
  | Some v => v
  | None => "DELETED"
  end.

(** ** Where the trigger is tested *)




(** ** The records of a batch *)

(** The records [batch_put] writes for [items]: the [i]-th pair stamped with
    the clock reading taken while it is handled. *)
Fixpoint batch_records (clock : nat -> N) (i : nat) (items : list (str * str))
    : list record :=
  match items with
  | [] => []
  | (key, value) :: rest => (clock i, key, value) :: batch_records clock (S i) rest
  end.

(** The records of a log that no later record of the same key follows. *)
Fixpoint last_records (recs : list record) : list record :=
  match recs with
  | [] => []
  | r :: rest =>
    if existsb (fun x => String.eqb (rec_key x) (rec_key r)) rest
    then last_records rest
    else r :: last_records rest
  end.

(** * Properties *)

(** ** Bytes and the header codec *)

Lemma len_app (a b : bytes) : len (a ++ b) = len a + len b.
Proof. unfold len. rewrite length_app. lia. Qed.

Lemma byte_of_N_to_N (n : N) : n < 256 -> Byte.to_N (byte_of_N n) = n.
Proof.
  intros H. unfold byte_of_N.
  destruct (Byte.of_N n) as [b|] eqn:E.
  - now apply Byte.to_of_N.
  - pose proof (Byte.to_of_N_option_map n) as Hm. rewrite E in Hm. cbn in Hm.
    destruct (n <=? 255) eqn:L; [discriminate|].
    apply N.leb_gt in L. lia.
Qed.

Lemma be_bytes_length (w : nat) (n : N) : List.length (be_bytes w n) = w.
Proof.
  revert n. induction w as [|w IH]; intros n; cbn [be_bytes].
  - reflexivity.
  - rewrite length_app, IH. cbn. lia.
Qed.

Lemma be_int_snoc (a : bytes) (b : byte) :
  be_int (a ++ [b]) = be_int a * 256 + Byte.to_N b.
Proof. unfold be_int. rewrite fold_left_app. reflexivity. Qed.

Lemma be_int_be_bytes (w : nat) (n : N) :
  n < 256 ^ N.of_nat w -> be_int (be_bytes w n) = n.
Proof.
  revert n. induction w as [|w IH]; intros n H.
  - cbn in *. unfold be_int. cbn. lia.
  - cbn [be_bytes]. rewrite be_int_snoc.
    rewrite Nat2N.inj_succ, N.pow_succ_r' in H.
    rewrite IH by (apply N.Div0.div_lt_upper_bound; lia).
    rewrite byte_of_N_to_N by (apply N.mod_lt; lia).
    pose proof (N.div_mod n 256). lia.
Qed.

Lemma firstn_app_exact {A} (a b : list A) n :
  n = List.length a -> firstn n (a ++ b) = a.
Proof.
  intros ->. rewrite firstn_app, Nat.sub_diag, firstn_all. cbn.
  apply app_nil_r.
Qed.

Lemma skipn_app_exact {A} (a b : list A) n :
  n = List.length a -> skipn n (a ++ b) = b.
Proof.
  intros ->. rewrite skipn_app, Nat.sub_diag, skipn_all. reflexivity.
Qed.

Lemma struct_pack_ok (ts ks vs : N) :
  ts < 2 ^ 64 -> ks < 2 ^ 32 -> vs < 2 ^ 32 ->
  struct_pack ts ks vs = Ret (be_bytes 8 ts ++ be_bytes 4 ks ++ be_bytes 4 vs).
Proof.
  intros H1 H2 H3. unfold struct_pack.
  apply N.ltb_lt in H1, H2, H3. rewrite H1, H2, H3. reflexivity.
Qed.

Lemma struct_unpack_header (ts ks vs : N) :
  ts < 2 ^ 64 -> ks < 2 ^ 32 -> vs < 2 ^ 32 ->
  struct_unpack (be_bytes 8 ts ++ be_bytes 4 ks ++ be_bytes 4 vs) = Ret (ts, ks, vs).
Proof.
  intros H1 H2 H3. unfold struct_unpack, len.
  rewrite !length_app, !be_bytes_length. cbn [Nat.add N.of_nat N.eqb Pos.eqb Pos.of_succ_nat Pos.succ].
  rewrite firstn_app_exact by (now rewrite be_bytes_length).
  rewrite (skipn_app_exact (be_bytes 8 ts)) by (now rewrite be_bytes_length).
  rewrite firstn_app_exact by (now rewrite be_bytes_length).
  rewrite app_assoc.
  rewrite skipn_app_exact by (now rewrite length_app, !be_bytes_length).
  rewrite !be_int_be_bytes by assumption.
  reflexivity.
Qed.

Lemma decode_encode (s : str) : wf_str s -> decode (encode s) = Ret s.
Proof.
  intros H. unfold decode. rewrite H. unfold encode.
  now rewrite string_of_list_byte_of_string.
Qed.

(** Reading inside a file at a given offset *)

Lemma pread_eq (data : bytes) (pos n : N) :
  pread data pos n = firstn (N.to_nat n) (skipn (N.to_nat pos) data).
Proof. reflexivity. Qed.

Lemma pread_at (pre mid post : bytes) (pos n : N) :
  pos = len pre -> n = len mid -> pread (pre ++ mid ++ post) pos n = mid.
Proof.
  intros -> ->. rewrite pread_eq. unfold len. rewrite !Nat2N.id.
  rewrite skipn_app_exact by reflexivity.
  now apply firstn_app_exact.
Qed.

(** ** Records in the log *)

Lemma len_be_bytes (w : nat) (n : N) : len (be_bytes w n) = N.of_nat w.
Proof. unfold len. now rewrite be_bytes_length. Qed.

Lemma encode_rec_length (r : record) : len (encode_rec r) = rec_size r.
Proof.
  unfold encode_rec, rec_size. rewrite !len_app, !len_be_bytes. lia.
Qed.

Lemma rec_size_pos (r : record) : 16 <= rec_size r.
Proof. unfold rec_size. lia. Qed.

Lemma encode_log_app (a b : list record) :
  encode_log (a ++ b) = encode_log a ++ encode_log b.
Proof. unfold encode_log. apply flat_map_app. Qed.

Lemma encode_log_length (recs : list record) :
  len (encode_log recs) = log_size recs.
Proof.
  induction recs as [|r recs IH]; [reflexivity|].
  cbn [encode_log flat_map log_size fold_right].
  fold (encode_log recs). fold (log_size recs).
  rewrite len_app, encode_rec_length, IH. reflexivity.
Qed.

(** The header of an encoded record, then its key and value. *)
Lemma encode_rec_split (r : record) :
  encode_rec r =
  (be_bytes 8 (rec_ts r) ++ be_bytes 4 (len (encode (rec_key r))) ++
   be_bytes 4 (len (encode (rec_value r)))) ++
  encode (rec_key r) ++ encode (rec_value r).
Proof. unfold encode_rec. now rewrite <- !app_assoc. Qed.

Lemma header_length (ts ks vs : N) :
  len (be_bytes 8 ts ++ be_bytes 4 ks ++ be_bytes 4 vs) = 16.
Proof. unfold len. now rewrite !length_app, !be_bytes_length. Qed.

Lemma record_layout (pre post : bytes) (r : record) :
  pre ++ encode_rec r ++ post =
  pre ++ (be_bytes 8 (rec_ts r) ++ be_bytes 4 (len (encode (rec_key r))) ++
          be_bytes 4 (len (encode (rec_value r)))) ++
  encode (rec_key r) ++ encode (rec_value r) ++ post.
Proof. rewrite encode_rec_split. now rewrite <- !app_assoc. Qed.

Lemma read_value_at (pre post : bytes) (r : record) (pos : N) :
  wf_rec r -> pos = len pre ->
  read_value (pre ++ encode_rec r ++ post) pos = Ret (rec_value r).
Proof.
  intros (Hts & Hk & Hv & Wk & Wv) ->. unfold read_value.
  rewrite record_layout.
  set (hdr := be_bytes 8 _ ++ _ ++ _).
  rewrite (pread_at pre hdr) by (subst hdr; now rewrite ?header_length).
  subst hdr. rewrite struct_unpack_header by assumption.
  set (hdr := be_bytes 8 _ ++ _ ++ _).
  replace (pre ++ hdr ++ encode (rec_key r) ++ encode (rec_value r) ++ post)
    with ((pre ++ hdr ++ encode (rec_key r)) ++ encode (rec_value r) ++ post)
    by (now rewrite <- !app_assoc).
  rewrite (pread_at _ (encode (rec_value r)) post).
  - now apply decode_encode.
  - subst hdr. rewrite !len_app, !len_be_bytes. lia.
  - reflexivity.
Qed.

Lemma load_entry_at (pre post : bytes) (r : record) (s : store) :
  wf_rec r ->
  data_size s = len pre ->
  load_entry {| r_data := pre ++ encode_rec r ++ post; r_pos := len pre |} s =
  Continue {| r_data := pre ++ encode_rec r ++ post;
              r_pos := len pre + rec_size r |}
           (with_fields s (replay_step (fields s) r)).
Proof.
  intros (Hts & Hk & Hv & Wk & Wv) Hds.
  rewrite record_layout.
  pose proof (struct_unpack_header _ _ _ Hts Hk Hv) as Hu.
  set (hdr := be_bytes 8 _ ++ _ ++ _) in *.
  set (kb := encode (rec_key r)) in *. set (vb := encode (rec_value r)) in *.
  set (D := pre ++ hdr ++ kb ++ vb ++ post).
  assert (Lh : len hdr = 16) by (subst hdr; apply header_length).
  assert (P1 : pread D (len pre) 16 = hdr) by (apply pread_at; now rewrite ?Lh).
  assert (P2 : pread D (len pre + 16) (len kb) = kb).
  { subst D. rewrite (app_assoc pre hdr).
    apply pread_at; rewrite ?len_app, ?Lh; reflexivity. }
  assert (P3 : pread D (len pre + 16 + len kb) (len vb) = vb).
  { subst D. rewrite (app_assoc pre hdr), (app_assoc (pre ++ hdr) kb).
    apply pread_at; rewrite ?len_app, ?Lh; reflexivity. }
  unfold load_entry, f_read, f_tell. cbn [r_data r_pos].
  rewrite <- !pread_eq. rewrite P1, Lh, Hu.
  destruct hdr as [|h0 hdr']; [discriminate|].
  rewrite <- !pread_eq. rewrite P2.
  unfold kb at 1. rewrite decode_encode by assumption.
  rewrite P3.
  unfold with_fields, fields, replay_step, rec_size. fold kb vb. rewrite Hds.
  do 2 f_equal. lia.
Qed.

Lemma load_entry_eof (data : bytes) (s : store) (pos : N) :
  len data <= pos ->
  load_entry {| r_data := data; r_pos := pos |} s = Break.
Proof.
  intros H. unfold load_entry, f_read. cbn [r_data r_pos].
  rewrite skipn_all2 by (unfold len in H; lia).
  rewrite firstn_nil. reflexivity.
Qed.

(** ** Recovery replays the records of the log *)

Lemma load_loop_eq (f : reader) (s : store) :
  load_loop f s =
  match load_entry f s with
  | Break => (s, Ret tt)
  | Fail e => (s, Raise e)
  | Continue f' s' => load_loop f' s'
  end.
Proof.
  rewrite load_loop_equation_1.
  generalize (Logic.inspect (load_entry f s)). intros [y e].
  transitivity (match y with
                | Break => (s, Ret tt)
                | Fail e => (s, Raise e)
                | Continue f' s' => load_loop f' s'
                end).
  - destruct y; reflexivity.
  - rewrite e. reflexivity.
Qed.

Lemma with_fields_fields (s : store) : with_fields s (fields s) = s.
Proof. now destruct s. Qed.

Lemma fields_with_fields (s : store) (st : index * N * N) :
  fields (with_fields s st) = st.
Proof. now destruct st as [[ks d] g]. Qed.

Lemma with_fields_twice (s : store) (a b : index * N * N) :
  with_fields (with_fields s a) b = with_fields s b.
Proof. now destruct a as [[? ?] ?], b as [[? ?] ?]. Qed.

Lemma replay_step_data (st : index * N * N) (r : record) :
  snd (fst (replay_step st r)) = snd (fst st) + rec_size r.
Proof. now destruct st as [[ks d] g]. Qed.

Lemma fold_replay_data (recs : list record) (st : index * N * N) :
  snd (fst (fold_left replay_step recs st)) = snd (fst st) + log_size recs.
Proof.
  revert st. induction recs as [|r recs IH]; intros st; cbn [fold_left].
  - cbn. lia.
  - rewrite IH, replay_step_data. cbn [log_size fold_right].
    fold (log_size recs). lia.
Qed.

(** Reading from the start of a run of well-formed records passes over all of
    them, updating the index and counters record by record. *)
Lemma load_loop_records (recs : list record) :
  forall (pre post : bytes) (s : store),
    Forall wf_rec recs ->
    data_size s = len pre ->
    load_loop {| r_data := pre ++ encode_log recs ++ post; r_pos := len pre |} s =
    load_loop {| r_data := pre ++ encode_log recs ++ post;
                 r_pos := len pre + log_size recs |}
              (with_fields s (fold_left replay_step recs (fields s))).
Proof.
  induction recs as [|r recs IH]; intros pre post s Hwf Hds.
  - cbn [fold_left log_size fold_right]. rewrite with_fields_fields, N.add_0_r.
    reflexivity.
  - inversion Hwf as [|? ? Hr Hrest]; subst.
    rewrite load_loop_eq.
    cbn [encode_log flat_map]. fold (encode_log recs).
    rewrite <- (app_assoc (encode_rec r)).
    rewrite load_entry_at by assumption.
    replace (pre ++ encode_rec r ++ encode_log recs ++ post)
      with ((pre ++ encode_rec r) ++ encode_log recs ++ post)
      by (now rewrite <- app_assoc).
    replace (len pre + rec_size r) with (len (pre ++ encode_rec r))
      by (now rewrite len_app, encode_rec_length).
    rewrite IH; [|assumption|].
    + rewrite with_fields_twice, fields_with_fields.
      cbn [fold_left log_size fold_right]. fold (log_size recs).
      rewrite len_app, encode_rec_length, N.add_assoc. reflexivity.
    + pose proof (fields_with_fields s (replay_step (fields s) r)) as F.
      apply (f_equal (fun t => snd (fst t))) in F.
      rewrite replay_step_data in F. cbn [fields fst snd] in F.
      cbn [fields fst snd] in *. rewrite len_app, encode_rec_length, <- Hds.
      exact F.
Qed.

Lemma load_from_disk_log (recs : list record) (s : store) :
  Forall wf_rec recs ->
  disk s = Some (encode_log recs) ->
  _load_from_disk s = (with_fields s (replay recs), Ret tt).
Proof.
  intros Hwf Hd. unfold _load_from_disk. rewrite Hd. unfold f_open.
  pose proof (load_loop_records recs [] [] (mkStore (disk s) [] 0 0 (trace s))
                Hwf eq_refl) as H.
  cbn [app] in H. rewrite app_nil_r in H. change (len []) with 0 in H.
  rewrite N.add_0_l in H. rewrite Hd in *. rewrite H.
  rewrite load_loop_eq, load_entry_eof
    by (cbn [r_data r_pos]; rewrite encode_log_length; lia).
  unfold replay, with_fields, fields. cbn [keys data_size deleted_size disk trace].
  rewrite Hd. reflexivity.
Qed.

(** A tail shorter than a header, after well-formed records, makes the
    unpacking of the header raise. *)
Lemma load_entry_short_header (data : bytes) (pos : N) (s : store) :
  pos < len data -> len data < pos + 16 ->
  load_entry {| r_data := data; r_pos := pos |} s = Fail StructError.
Proof.
  intros H1 H2. unfold load_entry, f_read. cbn [r_data r_pos].
  set (h := firstn _ _).
  assert (L : List.length h = (List.length data - N.to_nat pos)%nat).
  { subst h. rewrite length_firstn, length_skipn. unfold len in *. lia. }
  destruct h as [|h0 h'] eqn:E.
  - cbn in L. unfold len in *. lia.
  - rewrite <- E in *. unfold struct_unpack.
    replace (len h =? 16) with false; [reflexivity|].
    symmetry. apply N.eqb_neq. unfold len in *. lia.
Qed.

Lemma load_torn_header (recs : list record) (tail : bytes) (s : store) :
  Forall wf_rec recs ->
  0 < len tail -> len tail < 16 ->
  disk s = Some (encode_log recs ++ tail) ->
  snd (_load_from_disk s) = Raise StructError.
Proof.
  intros Hwf H1 H2 Hd. unfold _load_from_disk. rewrite Hd. unfold f_open.
  pose proof (load_loop_records recs [] tail (mkStore (disk s) [] 0 0 (trace s))
                Hwf eq_refl) as H.
  cbn [app] in H. change (len []) with 0 in H.
  rewrite N.add_0_l in H. rewrite Hd in *. rewrite H.
  rewrite load_loop_eq, load_entry_short_header; [reflexivity| |];
    rewrite len_app, encode_log_length; lia.
Qed.

(** ** The index as a dictionary *)

Lemma dict_get_set_same (k : str) (e : entry) (d : index) :
  dict_get k (dict_set k e d) = Some e.
Proof.
  induction d as [|[k' e'] d IH]; cbn.
  - now rewrite String.eqb_refl.
  - destruct (String.eqb k' k) eqn:E; cbn; rewrite E; [reflexivity | exact IH].
Qed.

Lemma dict_get_set_other (k k' : str) (e : entry) (d : index) :
  k <> k' -> dict_get k' (dict_set k e d) = dict_get k' d.
Proof.
  intros Hn. induction d as [|[k0 e0] d IH]; cbn.
  - destruct (String.eqb_spec k k'); [contradiction | reflexivity].
  - destruct (String.eqb_spec k0 k) as [->|Hk]; cbn.
    + destruct (String.eqb_spec k k'); [contradiction | reflexivity].
    + now rewrite IH.
Qed.

Lemma dict_get_None_keys (k : str) (d : index) :
  dict_get k d = None <-> ~ In k (dict_keys d).
Proof.
  induction d as [|[k0 e0] d IH]; cbn.
  - tauto.
  - destruct (String.eqb_spec k0 k) as [->|Hk].
    + split; [discriminate | tauto].
    + rewrite IH. tauto.
Qed.

Lemma dict_get_In (k : str) (e : entry) (d : index) :
  dict_get k d = Some e -> In (k, e) d.
Proof.
  induction d as [|[k0 e0] d IH]; cbn; [discriminate|].
  destruct (String.eqb_spec k0 k) as [->|Hk].
  - intros [= ->]. now left.
  - intros H. right. now apply IH.
Qed.

Lemma In_dict_get (k : str) (e : entry) (d : index) :
  NoDup (dict_keys d) -> In (k, e) d -> dict_get k d = Some e.
Proof.
  induction d as [|[k0 e0] d IH]; cbn; [tauto|].
  intros Hnd [H|H].
  - injection H as -> ->. now rewrite String.eqb_refl.
  - inversion Hnd as [|? ? Hnot Hnd']; subst.
    destruct (String.eqb_spec k0 k) as [->|Hk].
    + exfalso. apply Hnot. apply (in_map fst) in H. exact H.
    + now apply IH.
Qed.

Lemma dict_keys_set (k : str) (e : entry) (d : index) :
  dict_keys (dict_set k e d) =
  if dict_mem k d then dict_keys d else dict_keys d ++ [k].
Proof.
  unfold dict_mem, dict_keys.
  induction d as [|[k0 e0] d IH]; cbn; [reflexivity|].
  destruct (String.eqb_spec k0 k) as [->|Hk]; cbn; [reflexivity|].
  rewrite IH. now destruct (dict_get k d).
Qed.

Lemma dict_set_NoDup (k : str) (e : entry) (d : index) :
  NoDup (dict_keys d) -> NoDup (dict_keys (dict_set k e d)).
Proof.
  intros H. rewrite dict_keys_set. unfold dict_mem.
  destruct (dict_get k d) eqn:E; [assumption|].
  apply dict_get_None_keys in E.
  apply NoDup_app; [assumption | repeat constructor; auto | ].
  intros x Hx [<-|[]]. contradiction.
Qed.

Lemma dict_mem_true (k : str) (d : index) :
  dict_mem k d = true <-> In k (dict_keys d).
Proof.
  unfold dict_mem. destruct (dict_get k d) eqn:E.
  - split; [|reflexivity]. intros _. apply dict_get_In in E.
    now apply (in_map fst) in E.
  - apply dict_get_None_keys in E. split; [discriminate | contradiction].
Qed.

(** Assigning to a key that sits between two parts of the index. *)
Lemma dict_set_middle (k : str) (e e' : entry) (a b : index) :
  ~ In k (dict_keys a) ->
  dict_set k e' (a ++ (k, e) :: b) = a ++ (k, e') :: b.
Proof.
  induction a as [|[k0 e0] a IH]; cbn; intros Hn.
  - now rewrite String.eqb_refl.
  - destruct (String.eqb_spec k0 k) as [->|Hk]; [tauto|].
    rewrite IH; tauto.
Qed.

Lemma dict_set_new (k : str) (e : entry) (d : index) :
  ~ In k (dict_keys d) -> dict_set k e d = d ++ [(k, e)].
Proof.
  induction d as [|[k0 e0] d IH]; cbn; intros Hn; [reflexivity|].
  destruct (String.eqb_spec k0 k) as [->|Hk]; [tauto|].
  rewrite IH; tauto.
Qed.

(** ** What replay leaves in the index *)

Lemma last_value_record (k : str) (recs : list record) :
  last_value k recs = option_map rec_value (last_record k recs).
Proof.
  induction recs as [|r recs IH]; cbn; [reflexivity|].
  rewrite IH. destruct (last_record k recs); cbn; [reflexivity|].
  now destruct (String.eqb (rec_key r) k).
Qed.

Lemma fold_replay_get (k : str) (recs : list record) :
  forall st,
    dict_get k (fst (fst (fold_left replay_step recs st))) =
    match last_entry k recs (snd (fst st)) with
    | Some e => Some e
    | None => dict_get k (fst (fst st))
    end.
Proof.
  induction recs as [|r recs IH]; intros [[ks d] g]; cbn [fold_left last_entry].
  - reflexivity.
  - rewrite IH. cbn [replay_step fst snd].
    destruct (last_entry k recs (d + rec_size r)); [reflexivity|].
    destruct (String.eqb_spec (rec_key r) k) as [<-|Hk].
    + apply dict_get_set_same.
    + now apply dict_get_set_other.
Qed.

Lemma fold_replay_NoDup (recs : list record) :
  forall st,
    NoDup (dict_keys (fst (fst st))) ->
    NoDup (dict_keys (fst (fst (fold_left replay_step recs st)))).
Proof.
  induction recs as [|r recs IH]; intros [[ks d] g] H; cbn [fold_left].
  - exact H.
  - apply IH. cbn [replay_step fst snd]. now apply dict_set_NoDup.
Qed.

Lemma replay_get (k : str) (recs : list record) :
  dict_get k (fst (fst (replay recs))) = last_entry k recs 0.
Proof.
  unfold replay. rewrite fold_replay_get. cbn.
  now destruct (last_entry k recs 0).
Qed.

Lemma replay_NoDup (recs : list record) :
  NoDup (dict_keys (fst (fst (replay recs)))).
Proof. apply fold_replay_NoDup. constructor. Qed.

Lemma replay_data (recs : list record) :
  snd (fst (replay recs)) = log_size recs.
Proof. unfold replay. now rewrite fold_replay_data. Qed.

(** Where the last record of a key sits. *)
Lemma last_entry_record (k : str) (recs : list record) :
  forall off pos size ts,
    last_entry k recs off = Some (pos, size, ts) ->
    exists pre r post,
      recs = pre ++ r :: post /\
      last_record k recs = Some r /\
      rec_key r = k /\ pos = off + log_size pre /\
      size = rec_size r /\ ts = rec_ts r.
Proof.
  induction recs as [|r recs IH]; intros off pos size ts; cbn; [discriminate|].
  destruct (last_entry k recs (off + rec_size r)) as [[[p s] t]|] eqn:E.
  - intros [= -> -> ->].
    destruct (IH _ _ _ _ E) as (pre & x & post & -> & Hl & Hk & Hp & Hs & Ht).
    exists (r :: pre), x, post. rewrite Hl. repeat split; try assumption.
    rewrite Hp. cbn [log_size fold_right]. fold (log_size pre). lia.
  - destruct (String.eqb_spec (rec_key r) k) as [Hk|Hk]; [|discriminate].
    intros [= <- <- <-].
    assert (Hn : last_record k recs = None).
    { clear -E. revert E. generalize (off + rec_size r).
      induction recs as [|x recs IH]; intros o; cbn; [reflexivity|].
      destruct (last_entry k recs (o + rec_size x)) eqn:E; [discriminate|].
      rewrite (IH _ E).
      destruct (String.eqb (rec_key x) k); [discriminate | reflexivity]. }
    exists [], r, recs. rewrite Hn. cbn.
    destruct (String.eqb_spec (rec_key r) k); [|contradiction].
    repeat split; try assumption; lia.
Qed.

Lemma last_entry_None (k : str) (recs : list record) (off : N) :
  last_entry k recs off = None <-> last_record k recs = None.
Proof.
  revert off. induction recs as [|r recs IH]; intros off; cbn; [tauto|].
  specialize (IH (off + rec_size r)).
  destruct (last_entry k recs (off + rec_size r)), (last_record k recs).
  - split; discriminate.
  - destruct IH as [_ IH]. specialize (IH eq_refl). discriminate.
  - destruct IH as [IH _]. specialize (IH eq_refl). discriminate.
  - destruct (String.eqb (rec_key r) k); split; auto; discriminate.
Qed.

(** ** Consistent states: what the index entries point at *)

Lemma Rep_keys (recs : list record) (s : store) :
  Rep recs s -> keys s = fst (fst (replay recs)).
Proof. intros (_ & _ & H). now rewrite <- H. Qed.

Lemma Rep_data_size (recs : list record) (s : store) :
  Rep recs s -> data_size s = log_size recs.
Proof. intros (_ & _ & H). rewrite <- replay_data, <- H. reflexivity. Qed.

Lemma Rep_file_length (recs : list record) (s : store) :
  Rep recs s -> data_size s = len (log_bytes s).
Proof.
  intros H. rewrite (Rep_data_size _ _ H). destruct H as (_ & -> & _).
  now rewrite encode_log_length.
Qed.

Lemma Rep_NoDup (recs : list record) (s : store) :
  Rep recs s -> NoDup (dict_keys (keys s)).
Proof. intros H. rewrite (Rep_keys _ _ H). apply replay_NoDup. Qed.

Lemma encode_log_nil (recs : list record) : encode_log recs = [] -> recs = [].
Proof.
  destruct recs as [|r recs]; [reflexivity|]. intros H.
  apply (f_equal len) in H. rewrite encode_log_length in H.
  cbn [log_size fold_right] in H. pose proof (rec_size_pos r).
  change (len []) with 0 in H. lia.
Qed.

Lemma Rep_no_file (recs : list record) (s : store) :
  Rep recs s -> disk s = None -> recs = [].
Proof.
  intros (_ & H & _) Hd. unfold log_bytes in H. rewrite Hd in H.
  now apply encode_log_nil.
Qed.

Lemma Rep_Indexed (recs : list record) (s : store) :
  Rep recs s -> Indexed recs s.
Proof.
  intros HR. pose proof HR as (Hwf & Hb & Hf).
  split; [assumption|]. split; [assumption|].
  split; [now apply (Rep_NoDup recs)|].
  intros k. rewrite (Rep_keys _ _ HR). apply replay_get.
Qed.

Lemma Indexed_no_file (recs : list record) (s : store) :
  Indexed recs s -> disk s = None -> recs = [].
Proof.
  intros (_ & H & _) Hd. unfold log_bytes in H. rewrite Hd in H.
  now apply encode_log_nil.
Qed.

Lemma Indexed_entry (recs : list record) (s : store) (k : str) (pos size ts : N) :
  Indexed recs s ->
  dict_get k (keys s) = Some (pos, size, ts) ->
  exists pre r post,
    recs = pre ++ r :: post /\ last_record k recs = Some r /\ wf_rec r /\
    rec_key r = k /\ pos = log_size pre /\ size = rec_size r /\ ts = rec_ts r.
Proof.
  intros (Hwf & _ & _ & Hi) Hg. rewrite Hi in Hg.
  destruct (last_entry_record _ _ _ _ _ _ Hg)
    as (pre & r & post & E & Hl & Hk & Hp & Hs & Ht).
  assert (Hw : wf_rec r).
  { rewrite E in Hwf.
    apply Forall_app in Hwf. destruct Hwf as [_ Hwf]. now inversion Hwf. }
  exists pre, r, post. rewrite N.add_0_l in Hp. tauto.
Qed.

Lemma Indexed_absent (recs : list record) (s : store) (k : str) :
  Indexed recs s -> dict_get k (keys s) = None -> last_record k recs = None.
Proof.
  intros (_ & _ & _ & Hi) Hg. rewrite Hi in Hg.
  now apply last_entry_None in Hg.
Qed.

Lemma Indexed_disk (recs : list record) (s : store) (k : str) (e : entry) :
  Indexed recs s -> dict_get k (keys s) = Some e ->
  disk s = Some (encode_log recs).
Proof.
  intros HI Hg. destruct (disk s) as [d|] eqn:Hd.
  - destruct HI as (_ & H & _). unfold log_bytes in H. rewrite Hd in H.
    now subst.
  - pose proof (Indexed_no_file _ _ HI Hd) as ->.
    destruct HI as (_ & _ & _ & Hi). rewrite Hi in Hg. discriminate.
Qed.

(** The bytes an index entry delimits are the encoded record. *)
Lemma Indexed_pread (recs : list record) (s : store) (k : str) (pos size ts : N) :
  Indexed recs s ->
  dict_get k (keys s) = Some (pos, size, ts) ->
  exists r, last_record k recs = Some r /\ wf_rec r /\ rec_key r = k /\
            size = rec_size r /\ ts = rec_ts r /\
            pread (encode_log recs) pos size = encode_rec r /\
            read_value (encode_log recs) pos = Ret (rec_value r).
Proof.
  intros HR Hg.
  destruct (Indexed_entry _ _ _ _ _ _ HR Hg)
    as (pre & r & post & E & Hl & Hw & Hk & Hp & Hs & Ht).
  exists r. do 5 (split; [assumption|]). split.
  - rewrite E, encode_log_app. cbn [encode_log flat_map]. fold (encode_log post).
    apply pread_at; [now rewrite encode_log_length | now rewrite encode_rec_length].
  - rewrite E, encode_log_app. cbn [encode_log flat_map]. fold (encode_log post).
    apply read_value_at; [assumption | now rewrite encode_log_length].
Qed.

Lemma stored_value_Indexed (recs : list record) (s : store) (k : str) :
  Indexed recs s -> stored_value k s = last_value k recs.
Proof.
  intros HR. unfold stored_value. rewrite last_value_record.
  destruct (dict_get k (keys s)) as [[[pos size] ts]|] eqn:Hg.
  - rewrite (Indexed_disk _ _ _ _ HR Hg).
    destruct (Indexed_pread _ _ _ _ _ _ HR Hg) as (r & Hl & _ & _ & _ & _ & _ & Hv).
    now rewrite Hv, Hl.
  - now rewrite (Indexed_absent _ _ _ HR Hg).
Qed.

Lemma read_Indexed (recs : list record) (s : store) (k : str) :
  Indexed recs s -> read k s = (s, Ret (visible (last_value k recs))).
Proof.
  intros HR. unfold read. rewrite last_value_record.
  destruct (dict_get k (keys s)) as [[[pos size] ts]|] eqn:Hg.
  - rewrite (Indexed_disk _ _ _ _ HR Hg).
    destruct (Indexed_pread _ _ _ _ _ _ HR Hg) as (r & Hl & _ & _ & _ & _ & _ & Hv).
    rewrite Hv, Hl. cbn. now destruct (String.eqb (rec_value r) "DELETED").
  - now rewrite (Indexed_absent _ _ _ HR Hg).
Qed.

Lemma Rep_entry (recs : list record) (s : store) (k : str) (pos size ts : N) :
  Rep recs s ->
  dict_get k (keys s) = Some (pos, size, ts) ->
  exists pre r post,
    recs = pre ++ r :: post /\ last_record k recs = Some r /\ wf_rec r /\
    rec_key r = k /\ pos = log_size pre /\ size = rec_size r /\ ts = rec_ts r.
Proof. intros HR. now apply Indexed_entry, Rep_Indexed. Qed.

Lemma stored_value_Rep (recs : list record) (s : store) (k : str) :
  Rep recs s -> stored_value k s = last_value k recs.
Proof. intros HR. now apply stored_value_Indexed, Rep_Indexed. Qed.

Lemma read_Rep (recs : list record) (s : store) (k : str) :
  Rep recs s -> read k s = (s, Ret (visible (last_value k recs))).
Proof. intros HR. now apply read_Indexed, Rep_Indexed. Qed.

Lemma reopen_Rep (recs : list record) (s : store) :
  Rep recs s -> reopen s = (s, Ret tt).
Proof.
  intros HR. unfold reopen. destruct (disk s) as [d|] eqn:Hd.
  - pose proof HR as (Hwf & Hb & Hf). unfold log_bytes in Hb. rewrite Hd in Hb.
    subst d. rewrite (load_from_disk_log recs) by assumption.
    rewrite <- Hf. change (keys s, data_size s, deleted_size s) with (fields s).
    now rewrite with_fields_fields.
  - pose proof (Rep_no_file _ _ HR Hd) as ->. 
    destruct HR as (_ & _ & Hf). unfold _load_from_disk. rewrite Hd.
    destruct s as [dk ks ds del tr]. cbn in *. injection Hf as -> -> ->.
    now subst dk.
Qed.

Lemma fresh_Rep : Rep [] fresh.
Proof. repeat split. constructor. Qed.

(** ** Appending a record *)

Lemma replay_snoc (recs : list record) (r : record) :
  replay (recs ++ [r]) = replay_step (replay recs) r.
Proof. unfold replay. now rewrite fold_left_app. Qed.

Lemma write_entry_raises (now : N) (k v : str) (s : store) :
  struct_pack now (len (encode k)) (len (encode v)) = Raise StructError ->
  write_entry now k v s = (s, Raise StructError).
Proof. intros H. unfold write_entry, bind, lift. now rewrite H. Qed.

Lemma struct_pack_cases (ts ks vs : N) :
  struct_pack ts ks vs = Raise StructError \/
  (ts < 2 ^ 64 /\ ks < 2 ^ 32 /\ vs < 2 ^ 32).
Proof.
  unfold struct_pack.
  destruct (ts <? 2 ^ 64) eqn:E1; [|now left].
  destruct (ks <? 2 ^ 32) eqn:E2; [|now left].
  destruct (vs <? 2 ^ 32) eqn:E3; [|now left].
  right. apply N.ltb_lt in E1, E2, E3. auto.
Qed.

Lemma write_entry_Rep (recs : list record) (now : N) (k v : str) (s : store) :
  Rep recs s -> wf_rec (now, k, v) ->
  exists s',
    write_entry now k v s = (s', Ret tt) /\
    Rep (recs ++ [(now, k, v)]) s' /\
    trace s' = trace s ++ [EvAppend (data_size s)].
Proof.
  intros HR Hw. pose proof Hw as (Hts & Hk & Hv & Wk & Wv).
  cbn [rec_ts rec_key rec_value fst snd] in *.
  unfold write_entry, bind, lift. rewrite struct_pack_ok by assumption.
  unfold append_record, index_update. cbn [disk keys data_size deleted_size trace].
  eexists. split; [reflexivity|].
  pose proof (Rep_file_length _ _ HR) as Hlen.
  destruct HR as (Hwf & Hb & Hf).
  split; [|cbn [trace]; unfold log_bytes in Hlen; now rewrite Hlen].
  split; [|split].
  - apply Forall_app. split; [assumption | now constructor].
  - unfold log_bytes at 1. cbn [disk]. fold (log_bytes s). rewrite Hb.
    rewrite encode_log_app. cbn [encode_log flat_map]. rewrite app_nil_r.
    unfold encode_rec. cbn [rec_ts rec_key rec_value fst snd].
    now rewrite <- !app_assoc.
  - cbn [keys data_size deleted_size]. rewrite replay_snoc, <- Hf.
    unfold replay_step, rec_size. cbn [rec_ts rec_key rec_value fst snd].
    fold (log_bytes s). rewrite <- Hlen. reflexivity.
Qed.

(** Either the header cannot be packed and nothing changes, or the record is
    appended. *)
Lemma write_entry_cases (recs : list record) (now : N) (k v : str) (s : store) :
  Rep recs s -> wf_str k -> wf_str v ->
  write_entry now k v s = (s, Raise StructError) \/
  exists s',
    write_entry now k v s = (s', Ret tt) /\
    Rep (recs ++ [(now, k, v)]) s' /\
    trace s' = trace s ++ [EvAppend (data_size s)].
Proof.
  intros HR Wk Wv.
  destruct (struct_pack_cases now (len (encode k)) (len (encode v)))
    as [H|(H1 & H2 & H3)].
  - left. now apply write_entry_raises.
  - right. apply write_entry_Rep; [assumption|]. repeat split; assumption.
Qed.

Lemma last_record_snoc (k : str) (recs : list record) (r : record) :
  last_record k (recs ++ [r]) =
  if String.eqb (rec_key r) k then Some r else last_record k recs.
Proof.
  induction recs as [|x recs IH]; cbn.
  - reflexivity.
  - rewrite IH. destruct (String.eqb (rec_key r) k); reflexivity.
Qed.

Lemma last_value_snoc (k : str) (recs : list record) (r : record) :
  last_value k (recs ++ [r]) =
  if String.eqb (rec_key r) k then Some (rec_value r) else last_value k recs.
Proof.
  rewrite !last_value_record, last_record_snoc.
  now destruct (String.eqb (rec_key r) k).
Qed.

(** ** Compaction *)

Lemma layout_keys (recs : list record) (off : N) :
  dict_keys (layout recs off) = map rec_key recs.
Proof.
  revert off. induction recs as [|r recs IH]; intros off; cbn; [reflexivity|].
  f_equal. apply IH.
Qed.

(** Replaying records with pairwise distinct keys that the index does not
    have yet appends their entries and finds no garbage. *)
Lemma fold_replay_distinct (recs : list record) :
  forall ks d g,
    NoDup (map rec_key recs) ->
    (forall r, In r recs -> ~ In (rec_key r) (dict_keys ks)) ->
    fold_left replay_step recs (ks, d, g) =
    (ks ++ layout recs d, d + log_size recs, g).
Proof.
  induction recs as [|r recs IH]; intros ks d g Hnd Hfresh.
  - cbn. now rewrite app_nil_r, N.add_0_r.
  - cbn [fold_left replay_step map] in *.
    inversion Hnd as [|? ? Hnot Hnd']; subst.
    assert (Hr : ~ In (rec_key r) (dict_keys ks)) by (apply Hfresh; now left).
    pose proof Hr as Hg. apply dict_get_None_keys in Hg. rewrite Hg.
    rewrite dict_set_new by assumption.
    rewrite IH; [| assumption |].
    + cbn [layout log_size fold_right]. fold (log_size recs).
      rewrite <- app_assoc, N.add_assoc. reflexivity.
    + intros x Hx. unfold dict_keys. rewrite map_app, in_app_iff. cbn.
      intros [H|[H|[]]].
      * apply (Hfresh x); [now right | exact H].
      * apply Hnot. rewrite H. now apply in_map.
Qed.

Lemma replay_distinct (recs : list record) :
  NoDup (map rec_key recs) ->
  replay recs = (layout recs 0, log_size recs, 0).
Proof.
  intros H. unfold replay. rewrite fold_replay_distinct; auto.
Qed.

Lemma compact_fold (old_f : bytes) (recs : list record) (todo : index) :
  forall (new_f : bytes) (done : index),
    Forall (points_at old_f recs) todo ->
    NoDup (dict_keys (done ++ todo)) ->
    fold_left (compact_entry old_f) todo (new_f, done ++ todo) =
    (new_f ++ encode_log (compacted recs todo),
     done ++ layout (compacted recs todo) (len new_f)).
Proof.
  induction todo as [|[k [[pos size] ts]] todo IH]; intros new_f done HP Hnd.
  - cbn. now rewrite !app_nil_r.
  - inversion HP as [|? ? Hitem HP']; subst.
    destruct Hitem as (r & Hl & Hw & Hk & Hs & Ht & Hp).
    cbn [fold_left compact_entry].
    rewrite dict_set_middle.
    2:{ unfold dict_keys in Hnd. rewrite map_app in Hnd. cbn in Hnd.
        apply NoDup_remove_2 in Hnd. rewrite in_app_iff in Hnd.
        unfold dict_keys. tauto. }
    pose proof (IH (new_f ++ pread old_f pos size)
                   (done ++ [(k, (len new_f, size, ts))]) HP') as IH'.
    rewrite <- !app_assoc in IH'. cbn [app] in IH'.
    etransitivity; [apply IH'|].
    + unfold dict_keys in *.
      rewrite map_app in *. cbn [map fst] in *. exact Hnd.
    + unfold compacted. cbn [flat_map fst]. rewrite Hl. cbn [app].
      fold (compacted recs todo).
      cbn [encode_log flat_map layout]. fold (encode_log (compacted recs todo)).
      rewrite Hp, <- ?app_assoc. cbn [app].
      rewrite len_app, encode_rec_length, Hk, Hs, Ht. reflexivity.
Qed.

Lemma compacted_keys (recs : list record) (idx : index) :
  Forall (fun item => exists r, last_record (fst item) recs = Some r /\
                                rec_key r = fst item) idx ->
  map rec_key (compacted recs idx) = dict_keys idx.
Proof.
  induction 1 as [|item idx (r & Hl & Hk) _ IH]; [reflexivity|].
  unfold compacted. cbn [flat_map]. rewrite Hl. cbn [app map].
  fold (compacted recs idx). rewrite IH, Hk. reflexivity.
Qed.

Lemma last_record_In (k : str) (recs : list record) (r : record) :
  last_record k recs = Some r -> In r recs /\ rec_key r = k.
Proof.
  induction recs as [|x recs IH]; cbn; [discriminate|].
  destruct (last_record k recs) as [y|].
  - intros [= <-]. destruct (IH eq_refl). auto.
  - destruct (String.eqb_spec (rec_key x) k); [|discriminate].
    intros [= <-]. auto.
Qed.

Lemma last_record_None (k : str) (recs : list record) :
  last_record k recs = None <-> ~ In k (map rec_key recs).
Proof.
  induction recs as [|x recs IH]; cbn; [tauto|].
  destruct (last_record k recs) as [y|].
  - split; [discriminate|]. intros H. exfalso. 
    destruct IH as [_ IH]. assert (Hn : ~ In k (map rec_key recs)) by tauto.
    specialize (IH Hn). discriminate.
  - destruct (String.eqb_spec (rec_key x) k).
    + split; [discriminate | tauto].
    + tauto.
Qed.

Lemma last_record_unique (recs : list record) (r : record) :
  NoDup (map rec_key recs) -> In r recs -> last_record (rec_key r) recs = Some r.
Proof.
  induction recs as [|x recs IH]; cbn; [tauto|].
  intros Hnd [->|Hin]; inversion Hnd as [|? ? Hnot Hnd']; subst.
  - apply last_record_None in Hnot. rewrite Hnot.
    now rewrite String.eqb_refl.
  - now rewrite (IH Hnd' Hin).
Qed.

Lemma compacted_In (recs : list record) (idx : index) (r : record) :
  In r (compacted recs idx) ->
  exists item, In item idx /\ last_record (fst item) recs = Some r.
Proof.
  unfold compacted. rewrite in_flat_map. intros (item & Hin & Hr).
  exists item. split; [assumption|].
  destruct (last_record (fst item) recs) as [x|]; [|contradiction].
  destruct Hr as [->|[]]. reflexivity.
Qed.

Lemma In_compacted (recs : list record) (idx : index) (item : str * entry)
    (r : record) :
  In item idx -> last_record (fst item) recs = Some r ->
  In r (compacted recs idx).
Proof.
  intros Hin Hl. unfold compacted. rewrite in_flat_map.
  exists item. split; [assumption|]. rewrite Hl. now left.
Qed.

Lemma Indexed_NoDup (recs : list record) (s : store) :
  Indexed recs s -> NoDup (dict_keys (keys s)).
Proof. now intros (_ & _ & H & _). Qed.

(** Compacting a consistent state gives a consistent state over the records
    kept, in the order of the index, and no key changes its last record. *)
Lemma compact_Indexed (recs : list record) (s : store) :
  Indexed recs s -> disk s <> None ->
  exists s',
    _compact s = (s', Ret tt) /\
    Rep (compacted recs (keys s)) s' /\
    (forall k, last_record k (compacted recs (keys s)) = last_record k recs) /\
    map rec_key (compacted recs (keys s)) = dict_keys (keys s) /\
    keys s' = layout (compacted recs (keys s)) 0 /\
    disk s' = Some (encode_log (compacted recs (keys s))) /\
    data_size s' = len (encode_log (compacted recs (keys s))) /\
    deleted_size s' = 0 /\
    trace s' = trace s ++ [EvCompact].
Proof.
  intros HR Hd. destruct (disk s) as [old_f|] eqn:Ed; [clear Hd|contradiction].
  assert (Hold : old_f = encode_log recs).
  { destruct HR as (_ & H & _). unfold log_bytes in H. now rewrite Ed in H. }
  assert (HP : Forall (points_at old_f recs) (keys s)).
  { apply Forall_forall. intros [k [[pos size] ts]] Hin.
    apply In_dict_get in Hin; [|now apply (Indexed_NoDup recs)].
    destruct (Indexed_pread _ _ _ _ _ _ HR Hin) as (r & H1 & H2 & H3 & H4 & H5 & H6 & _).
    exists r. subst old_f. tauto. }
  assert (HK : map rec_key (compacted recs (keys s)) = dict_keys (keys s)).
  { apply compacted_keys. eapply Forall_impl; [|exact HP].
    intros [k [[pos size] ts]] (r & H1 & _ & H3 & _). exists r. auto. }
  assert (Hnd : NoDup (map rec_key (compacted recs (keys s)))).
  { rewrite HK. now apply (Indexed_NoDup recs). }
  assert (Hwf : Forall wf_rec (compacted recs (keys s))).
  { apply Forall_forall. intros r Hr.
    destruct (compacted_In _ _ _ Hr) as ([k [[pos size] ts]] & Hin & Hl).
    rewrite Forall_forall in HP. destruct (HP _ Hin) as (r' & H1 & H2 & _).
    cbn [fst] in Hl. rewrite Hl in H1. now injection H1 as <-. }
  unfold _compact. rewrite Ed.
  pose proof (compact_fold old_f recs (keys s) [] [] HP) as HF.
  cbn [app] in HF. specialize (HF (Indexed_NoDup _ _ HR)).
  change (len []) with 0 in HF.
  destruct (fold_left (compact_entry old_f) (keys s) ([], keys s))
    as [new_f ks] eqn:EF.
  pose proof (eq_trans (eq_sym EF) HF) as E. injection E as -> ->.
  eexists. split; [reflexivity|].
  cbn [disk keys data_size deleted_size trace].
  repeat split; try assumption; try reflexivity.
  - cbn [keys data_size deleted_size]. rewrite replay_distinct by assumption.
    now rewrite encode_log_length.
  - intros k. destruct (last_record k recs) as [r|] eqn:El.
    + destruct (last_record_In _ _ _ El) as [_ Hk].
      assert (Hin : In k (dict_keys (keys s))).
      { destruct (dict_get k (keys s)) eqn:Eg.
        - apply dict_get_In in Eg. now apply (in_map fst) in Eg.
        - rewrite (Indexed_absent _ _ _ HR Eg) in El. discriminate. }
      unfold dict_keys in Hin. apply in_map_iff in Hin.
      destruct Hin as (item & Hfst & Hin).
      rewrite <- Hfst in El.
      pose proof (In_compacted _ _ _ _ Hin El) as Hc.
      rewrite <- Hk. now apply last_record_unique.
    + apply last_record_None. rewrite HK. intros Hin.
      apply dict_mem_true in Hin. unfold dict_mem in Hin.
      destruct (dict_get k (keys s)) as [[[pos size] ts]|] eqn:Eg; [|discriminate].
      destruct (Indexed_pread _ _ _ _ _ _ HR Eg) as (r & H1 & _).
      rewrite H1 in El. discriminate.
Qed.

Lemma compact_Rep (recs : list record) (s : store) :
  Rep recs s -> disk s <> None ->
  exists s',
    _compact s = (s', Ret tt) /\
    Rep (compacted recs (keys s)) s' /\
    (forall k, last_record k (compacted recs (keys s)) = last_record k recs) /\
    map rec_key (compacted recs (keys s)) = dict_keys (keys s) /\
    keys s' = layout (compacted recs (keys s)) 0 /\
    disk s' = Some (encode_log (compacted recs (keys s))) /\
    data_size s' = len (encode_log (compacted recs (keys s))) /\
    deleted_size s' = 0 /\
    trace s' = trace s ++ [EvCompact].
Proof. intros HR. now apply compact_Indexed, Rep_Indexed. Qed.

(** ** The operations on consistent states *)

Lemma view_eq_refl (a : list record) : view_eq a a.
Proof. intros k. reflexivity. Qed.

Lemma view_eq_snoc (a b : list record) (r : record) :
  view_eq a b -> view_eq (a ++ [r]) (b ++ [r]).
Proof. intros H k. now rewrite !last_record_snoc, H. Qed.

Lemma view_eq_app (a b w : list record) :
  view_eq a b -> view_eq (a ++ w) (b ++ w).
Proof.
  intros H. induction w as [|r w IH] using rev_ind.
  - now rewrite !app_nil_r.
  - rewrite !app_assoc. now apply view_eq_snoc.
Qed.

Lemma view_eq_value (a b : list record) (k : str) :
  view_eq a b -> last_value k a = last_value k b.
Proof. intros H. now rewrite !last_value_record, H. Qed.

Lemma compaction_due_disk (recs : list record) (s : store) :
  Rep recs s -> compaction_due s = true -> disk s <> None.
Proof.
  intros HR Hdue Hd. pose proof (Rep_no_file _ _ HR Hd) as ->.
  pose proof (Rep_data_size _ _ HR) as Hs. cbn in Hs.
  unfold compaction_due in Hdue. rewrite Hs in Hdue. discriminate.
Qed.

Lemma consider_compaction_Rep (recs : list record) (s : store) :
  Rep recs s ->
  exists recs' s',
    consider_compaction s = (s', Ret tt) /\
    Rep recs' s' /\ view_eq recs' recs /\
    dict_keys (keys s') = dict_keys (keys s) /\
    compaction_due s' = false /\
    trace s' = trace s ++ EvCheck (compaction_due s) ::
                 (if compaction_due s then [EvCompact] else []).
Proof.
  intros HR. unfold consider_compaction, emit.
  destruct (compaction_due s) eqn:Hdue.
  - set (s1 := mkStore _ _ _ _ _).
    assert (HR1 : Rep recs s1) by exact HR.
    destruct (compact_Rep recs s1 HR1 (compaction_due_disk _ _ HR Hdue))
      as (s' & Hc & HR' & Hv & Hk & Hks & _ & _ & Hdel & Htr).
    exists (compacted recs (keys s1)), s'. rewrite Hc.
    split; [reflexivity|]. split; [assumption|]. split; [assumption|].
    split; [|split].
    + rewrite Hks, layout_keys. exact Hk.
    + unfold compaction_due. rewrite Hdel. cbn. apply andb_false_iff. right.
      apply N.ltb_ge. lia.
    + rewrite Htr. subst s1. cbn [trace]. now rewrite <- app_assoc.
  - exists recs. eexists. split; [reflexivity|].
    split; [exact HR|]. split; [apply view_eq_refl|].
    split; [reflexivity|]. split; [exact Hdue | reflexivity].
Qed.

Lemma put_Rep (recs : list record) (now : N) (k v : str) (s : store) :
  Rep recs s -> wf_str k -> wf_str v ->
  exists recs' s',
    Rep recs' s' /\
    ((put now k v s = (s', Raise StructError) /\ view_eq recs' recs /\
      ~ fits now k v) \/
     (put now k v s = (s', Ret true) /\ fits now k v /\
      view_eq recs' (recs ++ [(now, k, v)]))).
Proof.
  intros HR Wk Wv.
  destruct (consider_compaction_Rep _ _ HR) as (r1 & s1 & Hc & HR1 & Hv1 & _).
  unfold put, bind. rewrite Hc.
  destruct (struct_pack_cases now (len (encode k)) (len (encode v)))
    as [Hp|(H1 & H2 & H3)].
  - exists r1, s1. split; [assumption|]. left.
    rewrite write_entry_raises by assumption. split; [reflexivity|].
    split; [assumption|].
    intros (F1 & F2 & F3). rewrite struct_pack_ok in Hp by assumption.
    discriminate.
  - assert (Hw : wf_rec (now, k, v)) by (repeat split; assumption).
    destruct (write_entry_Rep _ _ _ _ _ HR1 Hw) as (s2 & Hwr & HR2 & _).
    exists (r1 ++ [(now, k, v)]), s2. split; [assumption|]. right.
    rewrite Hwr. split; [reflexivity|]. split; [now repeat split|].
    now apply view_eq_snoc.
Qed.

Lemma put_ok (recs : list record) (now : N) (k v : str) (s : store) :
  Rep recs s -> wf_rec (now, k, v) ->
  exists recs' s',
    put now k v s = (s', Ret true) /\ Rep recs' s' /\
    view_eq recs' (recs ++ [(now, k, v)]).
Proof.
  intros HR (H1 & H2 & H3 & Wk & Wv).
  destruct (put_Rep recs now k v s HR Wk Wv)
    as (recs' & s' & HR' & [(_ & _ & Hn)|(Hp & _ & Hv)]).
  - exfalso. apply Hn. now repeat split.
  - exists recs', s'. auto.
Qed.

(** A key of the index of a consistent state is a Python string that fits
    the header. *)
Lemma Rep_key_wf (recs : list record) (s : store) (k : str) :
  Rep recs s -> dict_mem k (keys s) = true ->
  wf_str k /\ len (encode k) < 2 ^ 32.
Proof.
  intros HR Hm. unfold dict_mem in Hm.
  destruct (dict_get k (keys s)) as [[[pos size] ts]|] eqn:Hg; [|discriminate].
  destruct (Rep_entry _ _ _ _ _ _ HR Hg)
    as (_ & r & _ & _ & _ & (_ & Hk & _ & Wk & _) & <- & _).
  auto.
Qed.

Lemma delete_absent (now : N) (k : str) (s : store) :
  dict_mem k (keys s) = false -> delete now k s = (s, Ret false).
Proof. intros H. unfold delete. now rewrite H. Qed.

Lemma delete_Rep (recs : list record) (now : N) (k : str) (s : store) :
  Rep recs s -> dict_mem k (keys s) = true ->
  exists recs' s',
    Rep recs' s' /\
    ((delete now k s = (s', Raise StructError) /\ s' = s /\ recs' = recs /\
      ~ now < 2 ^ 64) \/
     (delete now k s = (s', Ret true) /\ now < 2 ^ 64 /\
      view_eq recs' (recs ++ [(now, k, "DELETED")]) /\
      dict_keys (keys s') = dict_keys (keys s))).
Proof.
  intros HR Hm. destruct (Rep_key_wf _ _ _ HR Hm) as [Wk Lk].
  unfold delete. rewrite Hm. cbn [negb]. unfold bind.
  assert (Wd : wf_str "DELETED") by reflexivity.
  destruct (write_entry_cases recs now k "DELETED" s HR Wk Wd)
    as [Hr|(s1 & Hw & HR1 & _)].
  - exists recs, s. split; [assumption|]. left. rewrite Hr.
    repeat split; try reflexivity.
    intros Hn. unfold write_entry, bind, lift in Hr.
    rewrite struct_pack_ok in Hr; [discriminate | assumption.. | reflexivity].
  - destruct (consider_compaction_Rep _ _ HR1)
      as (r2 & s2 & Hc & HR2 & Hv2 & Hk2 & _).
    exists r2, s2. split; [assumption|]. right. rewrite Hw, Hc.
    split; [reflexivity|]. split.
    + destruct (N.lt_ge_cases now (2 ^ 64)) as [|Hge]; [assumption|].
      exfalso. unfold write_entry, bind, lift, struct_pack in Hw.
      apply N.ltb_ge in Hge. rewrite Hge in Hw. discriminate.
    + split; [assumption|].
      rewrite Hk2. 
      unfold write_entry, bind, lift in Hw.
      destruct (struct_pack _ _ _); [|discriminate].
      unfold append_record, index_update in Hw. injection Hw as <-.
      cbn [keys]. rewrite dict_keys_set, Hm. reflexivity.
Qed.

Lemma open_append_Rep (recs : list record) (s : store) :
  Rep recs s -> Rep recs (fst (open_append s)) /\
                snd (open_append s) = Ret tt /\
                trace (fst (open_append s)) = trace s.
Proof.
  intros (Hwf & Hb & Hf). unfold open_append. cbn [fst snd].
  repeat split; assumption.
Qed.

Lemma batch_loop_Rep (items : list (str * str)) :
  forall (clock : nat -> N) (i : nat) (recs : list record) (s : store),
    Rep recs s ->
    Forall (fun kv => wf_str (fst kv) /\ wf_str (snd kv)) items ->
    exists written,
      Rep (recs ++ written) (fst (batch_loop clock i items s)) /\
      Forall (fun w => In (rec_key w, rec_value w) items) written.
Proof.
  induction items as [|[k v] items IH]; intros clock i recs s HR Ht.
  - exists []. rewrite app_nil_r. cbn. auto.
  - inversion Ht as [|? ? [Wk Wv] Ht']; subst. cbn [fst snd] in *.
    cbn [batch_loop]. unfold bind.
    destruct (write_entry_cases recs (clock i) k v s HR Wk Wv)
      as [Hr|(s1 & Hw & HR1 & _)].
    + rewrite Hr. exists []. rewrite app_nil_r. cbn [fst]. auto.
    + rewrite Hw.
      destruct (IH clock (S i) _ s1 HR1 Ht') as (w & HRw & Hin).
      exists ((clock i, k, v) :: w). rewrite <- app_assoc in HRw. cbn [app] in HRw.
      split; [exact HRw|]. constructor.
      * now left.
      * eapply Forall_impl; [|exact Hin]. intros a Ha. now right.
Qed.

(** Every operation takes consistent states to consistent states; what the
    log gains, up to compaction, is records the operation writes. *)
Lemma run_op_Rep (recs : list record) (s : store) (o : op) :
  Rep recs s -> typed_op o ->
  exists recs' written,
    Rep recs' (run_op o s) /\
    view_eq recs' (recs ++ written) /\
    Forall (writes o) written.
Proof.
  intros HR Ht. destruct o as [now k v|now k|clock items|]; cbn [run_op typed_op] in *.
  - destruct Ht as [Wk Wv].
    destruct (put_Rep recs now k v s HR Wk Wv)
      as (recs' & s' & HR' & [(Hp & Hv & _)|(Hp & _ & Hv)]); rewrite Hp; cbn [fst].
    + exists recs', []. rewrite app_nil_r. auto.
    + exists recs', [(now, k, v)]. split; [assumption|]. split; [assumption|].
      now repeat constructor.
  - destruct (dict_mem k (keys s)) eqn:Hm.
    + destruct (delete_Rep recs now k s HR Hm)
        as (recs' & s' & HR' & [(Hp & -> & -> & _)|(Hp & _ & Hv & _)]);
        rewrite Hp; cbn [fst].
      * exists recs, []. rewrite app_nil_r. split; [assumption|].
        split; [apply view_eq_refl | constructor].
      * exists recs', [(now, k, "DELETED")]. split; [assumption|].
        split; [assumption|]. now repeat constructor.
    + rewrite delete_absent by assumption. cbn [fst].
      exists recs, []. rewrite app_nil_r. split; [assumption|].
      split; [apply view_eq_refl | constructor].
  - destruct (consider_compaction_Rep _ _ HR) as (r1 & s1 & Hc & HR1 & Hv1 & _).
    unfold batch_put, bind. rewrite Hc.
    destruct (open_append_Rep _ _ HR1) as (HR2 & Ho & _).
    destruct (open_append s1) as [s2 ro]. cbn [fst snd] in *. subst ro.
    destruct (batch_loop_Rep items clock 0%nat r1 s2 HR2 Ht) as (w & HRw & Hin).
    exists (r1 ++ w), w. split; [|split; [now apply view_eq_app | assumption]].
    destruct (batch_loop clock 0 items s2) as [s3 [[]|e]]; exact HRw.
  - rewrite (reopen_Rep _ _ HR). exists recs, []. rewrite app_nil_r.
    split; [assumption|]. split; [apply view_eq_refl | constructor].
Qed.

Lemma run_ops_cons (o : op) (ops : list op) (s : store) :
  run_ops (o :: ops) s = run_ops ops (run_op o s).
Proof. reflexivity. Qed.

Lemma run_ops_consistent (ops : list op) :
  forall s, consistent s -> Forall typed_op ops -> consistent (run_ops ops s).
Proof.
  induction ops as [|o ops IH]; intros s Hc Ht; [exact Hc|].
  inversion Ht as [|? ? Ho Ht']; subst. rewrite run_ops_cons. apply IH; [|assumption].
  destruct Hc as [recs HR].
  destruct (run_op_Rep _ _ _ HR Ho) as (recs' & _ & HR' & _). now exists recs'.
Qed.

Lemma fresh_consistent : consistent fresh.
Proof. exists []. apply fresh_Rep. Qed.

(** ** The garbage counter *)

Lemma existsb_key_last_record (k : str) (recs : list record) :
  existsb (fun x => String.eqb (rec_key x) k) recs = false <->
  last_record k recs = None.
Proof.
  induction recs as [|x recs IH]; cbn; [tauto|].
  rewrite orb_false_iff, IH.
  destruct (last_record k recs).
  - split; [intros [_ H]; discriminate | discriminate].
  - destruct (String.eqb (rec_key x) k); split; auto; try discriminate.
    intros [H _]. discriminate.
Qed.

Lemma superseded_snoc (recs : list record) (r : record) :
  superseded (recs ++ [r]) = superseded recs + prev_size (rec_key r) recs.
Proof.
  unfold prev_size. induction recs as [|a recs IH].
  - reflexivity.
  - cbn [app superseded last_record]. rewrite IH, existsb_app. cbn [existsb].
    rewrite orb_false_r.
    destruct (existsb (fun x => String.eqb (rec_key x) (rec_key a)) recs) eqn:Ea.
    + cbn [orb].
      destruct (last_record (rec_key r) recs) eqn:El; [lia|].
      destruct (String.eqb_spec (rec_key a) (rec_key r)) as [E|E]; [|lia].
      rewrite E in Ea. apply existsb_key_last_record in El.
      rewrite El in Ea. discriminate.
    + cbn [orb]. apply existsb_key_last_record in Ea.
      destruct (last_record (rec_key r) recs) eqn:El.
      * destruct (String.eqb_spec (rec_key r) (rec_key a)) as [E|E]; [|lia].
        rewrite E in El. rewrite El in Ea. discriminate.
      * rewrite String.eqb_sym. destruct (String.eqb (rec_key a) (rec_key r)); lia.
Qed.

Lemma replay_deleted (recs : list record) :
  snd (replay recs) = superseded recs.
Proof.
  induction recs as [|r recs IH] using rev_ind; [reflexivity|].
  rewrite replay_snoc, superseded_snoc, <- IH.
  pose proof (replay_get (rec_key r) recs) as Hg.
  destruct (replay recs) as [[ks d] g]. cbn [replay_step fst snd] in *.
  unfold prev_size.
  destruct (dict_get (rec_key r) ks) as [[[p sz] ts]|].
  - symmetry in Hg.
    destruct (last_entry_record _ _ _ _ _ _ Hg) as (_ & x & _ & _ & -> & _ & _ & -> & _).
    reflexivity.
  - symmetry in Hg. apply last_entry_None in Hg. rewrite Hg. lia.
Qed.

Lemma superseded_le (recs : list record) : superseded recs <= log_size recs.
Proof.
  induction recs as [|r recs IH]; cbn [superseded log_size fold_right].
  - lia.
  - fold (log_size recs).
    destruct (existsb _ recs); lia.
Qed.

Lemma last_entry_lower (k : str) (recs : list record) :
  forall off p sz ts, last_entry k recs off = Some (p, sz, ts) -> off <= p.
Proof.
  induction recs as [|r recs IH]; intros off p sz ts; cbn; [discriminate|].
  destruct (last_entry k recs (off + rec_size r)) as [[[p' sz'] ts']|] eqn:E.
  - intros [= -> -> ->]. apply IH in E. lia.
  - destruct (String.eqb (rec_key r) k); [|discriminate].
    intros [= <- _ _]. lia.
Qed.

Lemma referenced_true (idx : index) (off : N) :
  referenced idx off = true <-> exists k sz ts, In (k, (off, sz, ts)) idx.
Proof.
  unfold referenced. rewrite existsb_exists. split.
  - intros ([k [[p sz] ts]] & Hin & Hp). cbn in Hp. apply N.eqb_eq in Hp.
    subst p. eauto.
  - intros (k & sz & ts & Hin). exists (k, (off, sz, ts)). split; [assumption|].
    cbn. apply N.eqb_refl.
Qed.

(** When the index holds exactly the entries of the last records, the
    records no entry references are those that a later record supersedes. *)
Lemma unreferenced_superseded (recs : list record) :
  forall off idx,
    (forall k e, last_entry k recs off = Some e -> In (k, e) idx) ->
    (forall k p sz ts, In (k, (p, sz, ts)) idx ->
       last_entry k recs off = Some (p, sz, ts) \/
       (last_entry k recs off = None /\ (p < off \/ off + log_size recs <= p))) ->
    unreferenced_bytes recs off idx = superseded recs.
Proof.
  induction recs as [|r recs IH]; intros off idx H1 H2; [reflexivity|].
  cbn [unreferenced_bytes superseded]. rewrite (IH (off + rec_size r) idx).
  - f_equal.
    destruct (existsb (fun x => String.eqb (rec_key x) (rec_key r)) recs) eqn:Ex.
    + destruct (referenced idx off) eqn:Er; [|reflexivity]. exfalso.
      apply referenced_true in Er. destruct Er as (k & sz & ts & Hin).
      pose proof (rec_size_pos r) as Hpos.
      destruct (H2 _ _ _ _ Hin) as [Hl|[_ Hb]].
      * cbn [last_entry] in Hl.
        destruct (last_entry k recs (off + rec_size r)) as [[[p' sz'] ts']|] eqn:E.
        -- injection Hl as -> -> ->. apply last_entry_lower in E. lia.
        -- destruct (String.eqb_spec (rec_key r) k) as [Hk|]; [|discriminate].
           subst k. apply last_entry_None in E.
           apply existsb_key_last_record in E. rewrite E in Ex. discriminate.
      * cbn [log_size fold_right] in Hb. lia.
    + apply existsb_key_last_record in Ex.
      assert (Hin : In (rec_key r, (off, rec_size r, rec_ts r)) idx).
      { apply H1. cbn [last_entry].
        apply (last_entry_None _ _ (off + rec_size r)) in Ex. rewrite Ex.
        now rewrite String.eqb_refl. }
      replace (referenced idx off) with true; [reflexivity|].
      symmetry. apply referenced_true. eauto.
  - intros k e He. apply H1. cbn [last_entry]. now rewrite He.
  - intros k p sz ts Hin. pose proof (rec_size_pos r) as Hpos.
    destruct (H2 _ _ _ _ Hin) as [Hl|[Hl Hb]]; cbn [last_entry] in Hl.
    + destruct (last_entry k recs (off + rec_size r)) as [e|] eqn:E.
      * left. exact Hl.
      * right. split; [reflexivity|].
        destruct (String.eqb (rec_key r) k); [|discriminate].
        injection Hl as <- _ _. lia.
    + destruct (last_entry k recs (off + rec_size r)) as [e|] eqn:E; [discriminate|].
      right. split; [reflexivity|].
      cbn [log_size fold_right] in Hb. fold (log_size recs) in Hb. lia.
Qed.

(** In a consistent state [deleted_size] counts exactly the bytes of the
    records that the index does not reference. *)
Lemma Rep_counters (recs : list record) (s : store) :
  Rep recs s ->
  data_size s = len (log_bytes s) /\
  deleted_size s = unreferenced_bytes recs 0 (keys s) /\
  deleted_size s <= data_size s.
Proof.
  intros HR. pose proof (Rep_Indexed _ _ HR) as (_ & _ & Hnd & Hi).
  pose proof (Rep_data_size _ _ HR) as Hd.
  assert (Hdel : deleted_size s = superseded recs).
  { destruct HR as (_ & _ & Hf). rewrite <- replay_deleted, <- Hf. reflexivity. }
  split; [now apply (Rep_file_length recs)|]. split.
  - rewrite Hdel. symmetry. apply unreferenced_superseded.
    + intros k e He. apply dict_get_In. now rewrite Hi.
    + intros k p sz ts Hin. left. rewrite <- Hi. now apply In_dict_get.
  - rewrite Hdel, Hd. apply superseded_le.
Qed.

(** ** Range reads *)

Lemma ascii_compare_trans_eq (a b c : ascii) :
  (a ?= b)%char <> Gt -> (b ?= c)%char <> Gt ->
  ((a ?= c)%char = Lt /\ ((a ?= b)%char = Lt \/ (b ?= c)%char = Lt)) \/
  ((a ?= c)%char = Eq /\ (a ?= b)%char = Eq /\ (b ?= c)%char = Eq).
Proof.
  unfold Ascii.compare. intros H1 H2.
  destruct (N.compare_spec (N_of_ascii a) (N_of_ascii b)) as [E1|E1|E1];
    destruct (N.compare_spec (N_of_ascii b) (N_of_ascii c)) as [E2|E2|E2];
    try congruence.
  - right. rewrite E1, E2, N.compare_refl. auto.
  - left. split; [apply N.compare_lt_iff; lia | now right].
  - left. split; [apply N.compare_lt_iff; lia | now left].
  - left. split; [apply N.compare_lt_iff; lia | now left].
Qed.

Lemma leb_trans (a b c : str) :
  String.leb a b = true -> String.leb b c = true -> String.leb a c = true.
Proof.
  unfold String.leb. revert b c.
  induction a as [|x a IH]; intros [|y b] [|z c]; cbn; try easy.
  intros H1 H2.
  destruct (ascii_compare_trans_eq x y z) as [[E _]|(E & E1 & E2)].
  - destruct (x ?= y)%char; congruence.
  - destruct (y ?= z)%char; congruence.
  - now rewrite E.
  - rewrite E. rewrite E1 in H1. rewrite E2 in H2. now apply (IH b c).
Qed.

Lemma sorted_StronglySorted (l : list str) :
  StronglySorted (fun x y => String.leb x y = true) (sorted l).
Proof.
  apply Sorted_StronglySorted.
  - intros x y z. apply leb_trans.
  - apply StrSort.Sorted_sort.
Qed.

Lemma sorted_In (l : list str) (k : str) : In k (sorted l) <-> In k l.
Proof.
  split; apply Permutation_in;
    [apply Permutation_sym|]; apply StrSort.Permuted_sort.
Qed.

Lemma sorted_NoDup (l : list str) : NoDup l -> NoDup (sorted l).
Proof. apply Permutation_NoDup, StrSort.Permuted_sort. Qed.

(** The two loops of [read_key_range] on keys of the index. *)
Lemma range_loops (recs : list record) (s : store) (a b : str) (l : list str) :
  Indexed recs s ->
  (forall k, In k l -> In k (dict_keys (keys s))) ->
  exists keys_to_read,
    select_range a b (keys s) l = Ret keys_to_read /\
    read_entries (encode_log recs) keys_to_read = Ret (range_result a b s l).
Proof.
  intros HI. induction l as [|k l IH]; intros Hin.
  - exists []. split; reflexivity.
  - destruct IH as (ktr & Hs & Hr); [intros x Hx; apply Hin; now right|].
    cbn [select_range range_result flat_map]. fold (range_result a b s l).
    destruct (String.leb a k && String.leb k b).
    + assert (Hk : In k (dict_keys (keys s))) by (apply Hin; now left).
      apply dict_mem_true in Hk. unfold dict_mem in Hk.
      destruct (dict_get k (keys s)) as [[[pos size] ts]|] eqn:Hg; [|discriminate].
      rewrite Hs. exists ((k, pos, size) :: ktr). split; [reflexivity|].
      cbn [read_entries].
      destruct (Indexed_pread _ _ _ _ _ _ HI Hg) as (r & Hl & _ & _ & _ & _ & _ & Hv).
      rewrite Hv, Hr.
      rewrite (stored_value_Indexed _ _ _ HI), last_value_record, Hl. cbn.
      now destruct (String.eqb (rec_value r) "DELETED").
    + exists ktr. auto.
Qed.

Lemma read_key_range_Indexed (recs : list record) (s : store) (a b : str) :
  Indexed recs s -> disk s <> None ->
  read_key_range a b s =
  (s, Ret (range_result a b s (sorted (dict_keys (keys s))))).
Proof.
  intros HI Hd. unfold read_key_range.
  destruct (range_loops recs s a b (sorted (dict_keys (keys s))) HI)
    as (ktr & Hs & Hr); [intros k; apply sorted_In|].
  rewrite Hs. destruct (disk s) as [data|] eqn:Ed; [|contradiction].
  destruct HI as (_ & Hb & _). unfold log_bytes in Hb. rewrite Ed in Hb.
  subst data. now rewrite Hr.
Qed.

Lemma range_result_In (a b : str) (s : store) (l : list str) (k v : str) :
  In (k, v) (range_result a b s l) <->
  In k l /\ String.leb a k = true /\ String.leb k b = true /\
  stored_value k s = Some v /\ v <> "DELETED".
Proof.
  unfold range_result. rewrite in_flat_map. split.
  - intros (x & Hx & Hin).
    destruct (String.leb a x) eqn:E1; [|contradiction].
    destruct (String.leb x b) eqn:E2; [|contradiction]. cbn [andb] in Hin.
    destruct (stored_value x s) as [w|] eqn:Ev; [|contradiction]. cbn in Hin.
    destruct (String.eqb_spec w "DELETED") as [|Hn]; [contradiction|].
    destruct Hin as [[= -> ->]|[]]. auto.
  - intros (Hin & E1 & E2 & Ev & Hn). exists k. split; [assumption|].
    rewrite E1, E2, Ev. cbn.
    destruct (String.eqb_spec v "DELETED"); [contradiction | now left].
Qed.

Lemma range_result_keys (a b : str) (s : store) (l : list str) :
  exists keep : str -> bool, map fst (range_result a b s l) = filter keep l.
Proof.
  exists (fun k => String.leb a k && String.leb k b &&
                   match visible (stored_value k s) with
                   | Some _ => true
                   | None => false
                   end).
  induction l as [|k l IH]; [reflexivity|].
  unfold range_result in *. cbn [flat_map filter].
  rewrite map_app.
  destruct (String.leb a k && String.leb k b); [|exact IH].
  destruct (visible (stored_value k s)); cbn; [f_equal|]; exact IH.
Qed.

Lemma StronglySorted_filter {A} (R : A -> A -> Prop) (f : A -> bool) (l : list A) :
  StronglySorted R l -> StronglySorted R (filter f l).
Proof.
  induction 1 as [|x l Hs IH Hf]; cbn; [constructor|].
  destruct (f x); [|assumption]. constructor; [assumption|].
  rewrite Forall_forall in *. intros y Hy. apply filter_In in Hy. now apply Hf.
Qed.

(** Ascending order without repetition is strictly ascending order. *)
Lemma StronglySorted_strict (l : list str) :
  StronglySorted (fun x y => String.leb x y = true) l -> NoDup l ->
  StronglySorted (fun x y => String.ltb x y = true) l.
Proof.
  induction 1 as [|x l Hs IH Hf]; intros Hnd; [constructor|].
  inversion Hnd as [|? ? Hnot Hnd']; subst.
  constructor; [now apply IH|].
  rewrite Forall_forall in *. intros y Hy. specialize (Hf y Hy).
  unfold String.leb in Hf. unfold String.ltb.
  destruct (String.compare x y) eqn:E; try easy.
  apply String.compare_eq_iff in E. subst y. contradiction.
Qed.

(** ** The replies of the handler *)

Lemma split_once_READ (k : str) :
  split_once ("READ " ++ k)%string = ["READ"; k].
Proof. reflexivity. Qed.

Lemma handle_READ (json_dumps : list (str * str) -> str) (exn_text : exn -> str)
    (now : N) (received k : str) (s : store) :
  strip received = ("READ " ++ k)%string ->
  handle json_dumps exn_text now received s =
  match read k s with
  | (s', Ret (Some v)) => (s', mkReply ("OK " ++ v ++ nl)%string false)
  | (s', Ret None) => (s', mkReply ("OK NULL" ++ nl)%string false)
  | (s', Raise e) => (s', mkReply ("ERROR " ++ exn_text e ++ nl)%string false)
  end.
Proof.
  intros H. unfold handle. rewrite H.
  change (String.eqb ("READ " ++ k) "SHUTDOWN")%string with false.
  cbv iota. rewrite split_once_READ.
  unfold dispatch. cbn [String.eqb Ascii.eqb Bool.eqb]. cbv iota.
  unfold bind, lift, first_arg, ret.
  destruct (read k s) as [s' [[v|]|e]]; reflexivity.
Qed.

Lemma read_of_stored (k v : str) (s : store) :
  stored_value k s = Some v -> read k s = (s, Ret (visible (Some v))).
Proof.
  unfold stored_value, read.
  destruct (dict_get k (keys s)) as [[[pos size] ts]|]; [|discriminate].
  destruct (disk s) as [data|]; [|discriminate].
  destruct (read_value data pos) as [w|e]; [|discriminate].
  intros [= ->]. cbn. now destruct (String.eqb v "DELETED").
Qed.

(** Every other request is answered by a line that starts with OK or ERROR
    and ends with the newline. *)
Lemma reply_of_other_commands
    (json_dumps : list (str * str) -> str) (exn_text : exn -> str)
    (now : N) (received : str) (s : store) :
  hd "" (split_once (strip received)) <> "BATCHPUT" ->
  exists body,
    sent (snd (handle json_dumps exn_text now received s)) = ("OK" ++ body ++ nl)%string \/
    sent (snd (handle json_dumps exn_text now received s)) = ("ERROR" ++ body ++ nl)%string.
Proof.
  intros Hc. unfold handle.
  destruct (String.eqb (strip received) "SHUTDOWN"); [exists ""; now left|].
  destruct (split_once (strip received)) as [|command args] eqn:Es.
  { unfold split_once in Es.
    destruct (cut_at_space (strip received)) as [[a b]|]; discriminate. }
  cbn [hd] in Hc.
  assert (Herr : forall e, exists body,
             ("ERROR " ++ exn_text e ++ nl)%string = ("OK" ++ body ++ nl)%string \/
             ("ERROR " ++ exn_text e ++ nl)%string = ("ERROR" ++ body ++ nl)%string)
    by (intros e; exists (" " ++ exn_text e)%string; now right).
  unfold dispatch, bind, lift, ret.
  destruct (String.eqb command "PUT").
  { destruct (first_arg args) as [a|e]; cbn [sent snd]; [|apply Herr].
    destruct (unpack2 (split_once a)) as [kv|e]; cbn [sent snd]; [|apply Herr].
    destruct (put now (fst kv) (snd kv) s) as [s' [b|e]]; cbn [sent snd];
      [exists ""; now left | apply Herr]. }
  destruct (String.eqb command "READ").
  { destruct (first_arg args) as [a|e]; cbn [sent snd]; [|apply Herr].
    destruct (read a s) as [s' [[v|]|e]]; cbn [sent snd];
      [exists (" " ++ v)%string; now left | exists " NULL"; now left | apply Herr]. }
  destruct (String.eqb command "DELETE").
  { destruct (first_arg args) as [a|e]; cbn [sent snd]; [|apply Herr].
    destruct (delete now a s) as [s' [[|]|e]]; cbn [sent snd];
      [exists ""; now left | exists " Key not found"; now right | apply Herr]. }
  destruct (String.eqb command "READRANGE").
  { destruct (first_arg args) as [a|e]; cbn [sent snd]; [|apply Herr].
    destruct (unpack2 (split_once a)) as [se|e]; cbn [sent snd]; [|apply Herr].
    destruct (read_key_range (fst se) (snd se) s) as [s' [l|e]]; cbn [sent snd];
      [exists (" " ++ json_dumps l)%string; now left | apply Herr]. }
  destruct (String.eqb_spec command "BATCHPUT"); [contradiction|].
  cbn [sent snd]. exists " Invalid command". now right.
Qed.

(** * The claims *)

(** ** C1: recovery and a torn tail *)

Lemma init_torn_header (recs : list record) (tail : bytes) :
  Forall wf_rec recs ->
  0 < len tail -> len tail < 16 ->
  snd (__init__ (Some (encode_log recs ++ tail))) = Raise StructError.
Proof.
  intros Hwf H1 H2. unfold __init__.
  now apply (load_torn_header recs tail).
Qed.

(** C1 (the code does not do this).  Recovery is to end the replay quietly
    at a torn tail and keep the complete records.  But after any complete
    records, a tail of 1 to 15 bytes is read as a non-empty header shorter
    than 16 bytes, and [struct.unpack] raises: the store is not constructed.
    And a record cut inside its key is not noticed at all: on the record
    (5, k, hello) followed by the first 18 bytes of (6, key, value), the
    short read is taken as the key, so the index gains the truncated key
    [ke] and [data_size] (46) counts the declared size although the file
    has 40 bytes. *)
Theorem recovery_torn_tail :
  (forall (recs : list record) (tail : bytes),
     Forall wf_rec recs ->
     0 < len tail -> len tail < 16 ->
     snd (__init__ (Some (encode_log recs ++ tail))) = Raise StructError) /\
  (let torn := firstn 18 (encode_rec (6, "key", "value")) in
   let r := __init__ (Some (encode_log [(5, "k", "hello")] ++ torn)) in
   snd r = Ret tt /\
   dict_keys (keys (fst r)) = ["k"; "ke"] /\
   data_size (fst r) = 46 /\
   len (log_bytes (fst r)) = 40).
Proof.
  split; [exact init_torn_header|].
  vm_compute. repeat split.
Qed.

(** The crash scenario of the specification: one complete record and 7
    stray bytes. *)
Lemma recovery_torn_tail_witness :
  snd (__init__ (Some (encode_log [(5, "k", "hello")] ++
                        [x01; x02; x03; x04; x05; x06; x07]))) =
  Raise StructError.
Proof.
  apply (proj1 recovery_torn_tail [(5, "k", "hello")]
               [x01; x02; x03; x04; x05; x06; x07]).
  - repeat constructor.
  - reflexivity.
  - reflexivity.
Defined.

(** ** C2: the reply to BATCHPUT *)

(** C2 (the code does not do this).  Every accepted request is to be
    answered by one line that starts with OK or ERROR, a BATCHPUT by OK.
    For a request whose first token is BATCHPUT the handler makes no engine
    call, leaves the store as it is and sends the empty string. *)
Theorem batchput_reply_empty
    (json_dumps : list (str * str) -> str) (exn_text : exn -> str)
    (now : N) (received rest : str) (s : store) :
  strip received = ("BATCHPUT " ++ rest)%string ->
  handle json_dumps exn_text now received s = (s, mkReply "" false).
Proof.
  intros H. unfold handle. rewrite H.
  change (String.eqb ("BATCHPUT " ++ rest) "SHUTDOWN")%string with false.
  cbv iota.
  change (split_once ("BATCHPUT " ++ rest)%string) with ["BATCHPUT"; rest].
  reflexivity.
Qed.

Lemma batchput_reply_empty_witness :
  sent (snd (handle (fun _ => "") (fun _ => "") 9
               ("BATCHPUT 1" ++ nl ++ "k v" ++ nl)%string fresh)) = "".
Proof.
  rewrite (batchput_reply_empty (fun _ => "") (fun _ => "") 9
             ("BATCHPUT 1" ++ nl ++ "k v" ++ nl)%string
             ("1" ++ nl ++ "k v")%string fresh).
  - reflexivity.
  - vm_compute. reflexivity.
Defined.

(** ** C3: recovery equivalence *)

Lemma model_get_set_same (k : str) (x : option str) (m : model) :
  model_get k (model_set k x m) = Some x.
Proof.
  induction m as [|[k' x'] m IH]; cbn.
  - now rewrite String.eqb_refl.
  - destruct (String.eqb k' k) eqn:E; cbn; rewrite E; [reflexivity | exact IH].
Qed.

Lemma model_get_set_other (k k' : str) (x : option str) (m : model) :
  k <> k' -> model_get k' (model_set k x m) = model_get k' m.
Proof.
  intros Hn. induction m as [|[k0 x0] m IH]; cbn.
  - destruct (String.eqb_spec k k'); [contradiction | reflexivity].
  - destruct (String.eqb_spec k0 k) as [->|Hk]; cbn.
    + destruct (String.eqb_spec k k'); [contradiction | reflexivity].
    + now rewrite IH.
Qed.

Lemma Rep_mem (recs : list record) (s : store) (k : str) :
  Rep recs s -> dict_mem k (keys s) = true <-> last_value k recs <> None.
Proof.
  intros HR. rewrite <- (stored_value_Rep _ _ _ HR).
  unfold dict_mem, stored_value.
  destruct (dict_get k (keys s)) as [[[pos size] ts]|] eqn:Hg.
  - rewrite (Indexed_disk _ _ _ _ (Rep_Indexed _ _ HR) Hg).
    destruct (Indexed_pread _ _ _ _ _ _ (Rep_Indexed _ _ HR) Hg)
      as (r & _ & _ & _ & _ & _ & _ & Hv).
    rewrite Hv. split; [discriminate | reflexivity].
  - split; [discriminate | congruence].
Qed.

(** The log and the model stay in step through puts and deletes. *)
Lemma run_ops_model (ops : list op) :
  forall recs s m,
    Rep recs s ->
    (forall k, last_value k recs = option_map model_value (model_get k m)) ->
    Forall applied ops ->
    exists recs',
      Rep recs' (run_ops ops s) /\
      forall k, last_value k recs' =
                option_map model_value (model_get k (fold_left model_step ops m)).
Proof.
  induction ops as [|o ops IH]; intros recs s m HR Hm Ha.
  - exists recs. auto.
  - inversion Ha as [|? ? Ho Ha']; subst. rewrite run_ops_cons.
    cbn [fold_left].
    destruct o as [now k v|now k| |]; cbn [applied] in Ho; try contradiction.
    + destruct Ho as (Wk & Wv & F1 & F2 & F3).
      assert (Hw : wf_rec (now, k, v)) by (repeat split; assumption).
      destruct (put_ok _ _ _ _ _ HR Hw) as (r1 & s1 & Hp & HR1 & Hv).
      cbn [run_op]. rewrite Hp. cbn [fst].
      apply (IH _ _ _ HR1); [|assumption].
      intros k'. rewrite (view_eq_value _ _ _ Hv), last_value_snoc.
      cbn [rec_key rec_value fst snd model_step].
      destruct (String.eqb_spec k k') as [->|Hn].
      * now rewrite model_get_set_same.
      * rewrite model_get_set_other by assumption. apply Hm.
    + destruct Ho as (Wk & Hnow). cbn [run_op model_step].
      destruct (dict_mem k (keys s)) eqn:Em.
      * destruct (delete_Rep recs now k s HR Em)
          as (r1 & s1 & HR1 & [(_ & _ & _ & Hn)|(Hd & _ & Hv & _)]);
          [contradiction|].
        rewrite Hd. cbn [fst].
        apply (Rep_mem _ _ _ HR) in Em. rewrite Hm in Em.
        destruct (model_get k m) as [x|] eqn:Eg; [|now cbn in Em].
        apply (IH _ _ _ HR1); [|assumption].
        intros k'. rewrite (view_eq_value _ _ _ Hv), last_value_snoc.
        cbn [rec_key rec_value fst snd].
        destruct (String.eqb_spec k k') as [->|Hn].
        -- now rewrite model_get_set_same.
        -- rewrite model_get_set_other by assumption. apply Hm.
      * rewrite delete_absent by assumption. cbn [fst].
        assert (Eg : model_get k m = None).
        { destruct (model_get k m) as [x|] eqn:Eg; [|reflexivity].
          assert (Hk : dict_mem k (keys s) = true).
          { apply (Rep_mem _ _ _ HR). rewrite Hm, Eg. discriminate. }
          congruence. }
        rewrite Eg. now apply (IH _ _ _ HR).
Qed.

Lemma init_Rep (recs : list record) (s : store) :
  Rep recs s ->
  exists s', __init__ (disk s) = (s', Ret tt) /\
             disk s' = disk s /\ fields s' = fields s.
Proof.
  intros HR. unfold __init__. destruct (disk s) as [d|] eqn:Hd.
  - pose proof HR as (Hwf & Hb & Hf). unfold log_bytes in Hb. rewrite Hd in Hb.
    subst d. rewrite (load_from_disk_log recs) by (assumption || reflexivity).
    eexists. split; [reflexivity|]. rewrite fields_with_fields.
    unfold fields. rewrite Hf. split; [|reflexivity].
    now destruct (replay recs) as [[? ?] ?].
  - pose proof (Rep_no_file _ _ HR Hd) as ->.
    destruct HR as (_ & _ & Hf). eexists. split; [reflexivity|]. split; [reflexivity|].
    unfold fields. now rewrite Hf.
Qed.

(** C3.  For a sequence of puts and deletes performed on a fresh store,
    constructing the store again from the data file they leave succeeds and
    gives the index (and counters) the engine had in memory; the recovered
    index has the keys of the last-writer-wins model, and for each key, the
    record its entry points at holds what the model holds for that key: the
    value last put, or the tombstone. *)
Theorem recovery_equivalence (ops : list op) :
  Forall applied ops ->
  exists s',
    __init__ (disk (run_ops ops fresh)) = (s', Ret tt) /\
    keys s' = keys (run_ops ops fresh) /\
    data_size s' = data_size (run_ops ops fresh) /\
    deleted_size s' = deleted_size (run_ops ops fresh) /\
    (forall k, dict_mem k (keys s') = true <->
               model_get k (model_apply ops) <> None) /\
    (forall k, stored_value k s' =
               option_map model_value (model_get k (model_apply ops))).
Proof.
  intros Ha.
  destruct (run_ops_model ops [] fresh [] fresh_Rep (fun _ => eq_refl) Ha)
    as (recs & HR & Hm).
  destruct (init_Rep _ _ HR) as (s' & Hn & Hd & Hf).
  exists s'. split; [assumption|].
  unfold fields in Hf. injection Hf as Hk Hds Hdel.
  repeat (split; [assumption|]). split.
  - intros k. rewrite Hk, (Rep_mem _ _ _ HR), Hm. unfold model_apply.
    destruct (model_get k (fold_left model_step ops [])); cbn; split; intros H;
      try discriminate; now try (exfalso; apply H).
  - intros k. rewrite <- Hm, <- (stored_value_Rep _ _ _ HR).
    unfold stored_value. now rewrite Hk, Hd.
Qed.

Lemma recovery_equivalence_witness :
  exists s',
    __init__ (disk (run_ops [Put 5 "a" "1"; Put 6 "b" "2"; Put 7 "a" "3";
                              Delete 8 "b"; Put 9 "a" "4"] fresh)) = (s', Ret tt) /\
    keys s' = keys (run_ops [Put 5 "a" "1"; Put 6 "b" "2"; Put 7 "a" "3";
                             Delete 8 "b"; Put 9 "a" "4"] fresh).
Proof.
  destruct (recovery_equivalence
              [Put 5 "a" "1"; Put 6 "b" "2"; Put 7 "a" "3";
               Delete 8 "b"; Put 9 "a" "4"]) as (s' & H1 & H2 & _).
  - repeat constructor.
  - exists s'. split; assumption.
Defined.

(** ** C4: read-your-writes *)

Lemma writes_leaves (o : op) (r : record) (k : str) :
  writes o r -> leaves k o -> rec_key r <> k.
Proof.
  destruct o as [now key value|now key|clock items|]; cbn.
  - now intros ->.
  - now intros ->.
  - intros Hin Hn E. apply Hn. rewrite <- E.
    now apply (in_map fst) in Hin.
  - contradiction.
Qed.

Lemma last_record_app_other (k : str) (recs w : list record) :
  Forall (fun r => rec_key r <> k) w ->
  last_record k (recs ++ w) = last_record k recs.
Proof.
  induction w as [|r w IH] using rev_ind; intros H.
  - now rewrite app_nil_r.
  - apply Forall_app in H. destruct H as [Hw Hr].
    rewrite app_assoc, last_record_snoc, IH by assumption.
    inversion Hr as [|? ? Hk _]; subst.
    now destruct (String.eqb_spec (rec_key r) k).
Qed.

(** Operations that leave a key alone leave its last record alone. *)
Lemma run_ops_leaves (k : str) (ops : list op) :
  forall recs s,
    Rep recs s -> Forall typed_op ops -> Forall (leaves k) ops ->
    exists recs',
      Rep recs' (run_ops ops s) /\ last_record k recs' = last_record k recs.
Proof.
  induction ops as [|o ops IH]; intros recs s HR Ht Hl.
  - exists recs. auto.
  - inversion Ht as [|? ? Ho Ht']; inversion Hl as [|? ? Hlo Hl']; subst.
    destruct (run_op_Rep _ _ _ HR Ho) as (r1 & w & HR1 & Hv & Hw).
    destruct (IH _ _ HR1 Ht' Hl') as (r2 & HR2 & E).
    exists r2. rewrite run_ops_cons. split; [assumption|].
    rewrite E, Hv. apply last_record_app_other.
    eapply Forall_impl; [|exact Hw]. intros r Hr. now apply (writes_leaves o).
Qed.

Lemma read_after_put (s : store) (later : list op) (now : N) (k v : str) :
  consistent s ->
  Forall typed_op later -> Forall (leaves k) later ->
  wf_str k -> wf_str v -> fits now k v ->
  snd (put now k v s) = Ret true /\
  read k (run_ops later (fst (put now k v s))) =
  (run_ops later (fst (put now k v s)), Ret (visible (Some v))).
Proof.
  intros [recs HR] Ht Hl Wk Wv (F1 & F2 & F3).
  assert (Hw : wf_rec (now, k, v)) by (repeat split; assumption).
  destruct (put_ok _ _ _ _ _ HR Hw) as (r1 & s1 & Hp & HR1 & Hv).
  rewrite Hp. cbn [fst snd]. split; [reflexivity|].
  destruct (run_ops_leaves k later _ _ HR1 Ht Hl) as (r2 & HR2 & E).
  rewrite (read_Rep _ _ _ HR2), last_value_record, E, Hv, last_record_snoc.
  cbn [rec_key fst snd]. now rewrite String.eqb_refl.
Qed.

(** C4 as the code has it.  After any sequence of operations, a put of [k]
    with a value [v] other than the tombstone sentinel DELETED returns, and
    as long as no later operation puts or deletes [k], [read k] returns [v].
    The strings are Python strings and the header fields fit, so that the
    put itself does not raise. *)
Theorem read_your_writes (before later : list op) (now : N) (k v : str) :
  Forall typed_op before ->
  Forall typed_op later -> Forall (leaves k) later ->
  wf_str k -> wf_str v -> fits now k v ->
  v <> "DELETED" ->
  snd (put now k v (run_ops before fresh)) = Ret true /\
  snd (read k (run_ops later (fst (put now k v (run_ops before fresh))))) =
  Ret (Some v).
Proof.
  intros Hb Ht Hl Wk Wv Hf Hn.
  assert (Hc : consistent (run_ops before fresh))
    by (apply run_ops_consistent; [apply fresh_consistent | assumption]).
  destruct (read_after_put _ later now k v Hc Ht Hl Wk Wv Hf) as [Hp Hr].
  split; [assumption|]. rewrite Hr. cbn.
  now destruct (String.eqb_spec v "DELETED").
Qed.

Lemma read_your_writes_witness :
  snd (read "k" (run_ops [Put 7 "other" "x"; Delete 8 "other"]
                   (fst (put 6 "k" "v2" (run_ops [Put 5 "k" "v1"] fresh))))) =
  Ret (Some "v2").
Proof.
  refine (proj2 (read_your_writes [Put 5 "k" "v1"]
                   [Put 7 "other" "x"; Delete 8 "other"] 6 "k" "v2"
                   _ _ _ _ _ _ _)).
  - repeat constructor.
  - repeat constructor.
  - repeat constructor; discriminate.
  - reflexivity.
  - reflexivity.
  - repeat split.
  - discriminate.
Defined.

(** C4 as stated fails: the value DELETED is put and acknowledged, and the
    read that follows returns nothing. *)
Lemma read_your_writes_sentinel :
  snd (put 5 "k" "DELETED" fresh) = Ret true /\
  snd (read "k" (fst (put 5 "k" "DELETED" fresh))) = Ret None /\
  snd (read "k" (fst (put 5 "k" "DELETED" fresh))) <> Ret (Some "DELETED").
Proof. vm_compute. repeat split. discriminate. Qed.

(** ** C5: delete hides *)

Lemma writes_no_put (o : op) (r : record) (k : str) :
  writes o r -> no_put k o -> rec_key r = k -> rec_value r = "DELETED".
Proof.
  destruct o as [now key value|now key|clock items|]; cbn.
  - intros -> Hn E. cbn in E. contradiction.
  - now intros ->.
  - intros Hin Hn E. exfalso. apply Hn. rewrite <- E.
    now apply (in_map fst) in Hin.
  - contradiction.
Qed.

Lemma last_value_app_tombstone (k : str) (recs w : list record) :
  Forall (fun r => rec_key r = k -> rec_value r = "DELETED") w ->
  last_value k recs = Some "DELETED" ->
  last_value k (recs ++ w) = Some "DELETED".
Proof.
  induction w as [|r w IH] using rev_ind; intros H Hv.
  - now rewrite app_nil_r.
  - apply Forall_app in H. destruct H as [Hw Hr].
    rewrite app_assoc, last_value_snoc, IH by assumption.
    inversion Hr as [|? ? Hk _]; subst.
    destruct (String.eqb_spec (rec_key r) k) as [E|]; [|reflexivity].
    now rewrite Hk.
Qed.

(** A tombstoned key stays tombstoned until it is put again. *)
Lemma run_ops_no_put (k : str) (ops : list op) :
  forall recs s,
    Rep recs s -> Forall typed_op ops -> Forall (no_put k) ops ->
    last_value k recs = Some "DELETED" ->
    exists recs',
      Rep recs' (run_ops ops s) /\ last_value k recs' = Some "DELETED".
Proof.
  induction ops as [|o ops IH]; intros recs s HR Ht Hl Hd.
  - exists recs. auto.
  - inversion Ht as [|? ? Ho Ht']; inversion Hl as [|? ? Hlo Hl']; subst.
    destruct (run_op_Rep _ _ _ HR Ho) as (r1 & w & HR1 & Hv & Hw).
    rewrite run_ops_cons. apply (IH _ _ HR1 Ht' Hl').
    rewrite (view_eq_value _ _ _ Hv). apply last_value_app_tombstone; [|assumption].
    eapply Forall_impl; [|exact Hw]. intros r Hr. now apply (writes_no_put o).
Qed.

Lemma stored_value_mem (k v : str) (s : store) :
  stored_value k s = Some v -> dict_mem k (keys s) = true.
Proof.
  unfold stored_value, dict_mem. now destruct (dict_get k (keys s)).
Qed.

(** C5.  Deleting a key of the index returns true; from then on, until a
    put of [k], [read k] returns nothing and the handler answers READ [k]
    with "OK NULL", while the index still holds [k] and its entry points at
    a record whose value is DELETED. *)
Theorem delete_hides
    (json_dumps : list (str * str) -> str) (exn_text : exn -> str)
    (s : store) (later : list op) (now now' : N) (k received : str) :
  consistent s ->
  dict_mem k (keys s) = true ->
  now < 2 ^ 64 ->
  Forall typed_op later -> Forall (no_put k) later ->
  strip received = ("READ " ++ k)%string ->
  let s' := run_ops later (fst (delete now k s)) in
  snd (delete now k s) = Ret true /\
  snd (read k s') = Ret None /\
  sent (snd (handle json_dumps exn_text now' received s')) = ("OK NULL" ++ nl)%string /\
  dict_mem k (keys s') = true /\
  stored_value k s' = Some "DELETED".
Proof.
  intros [recs HR] Hm Hnow Ht Hl Hrecv s'.
  destruct (delete_Rep recs now k s HR Hm)
    as (r1 & s1 & HR1 & [(_ & _ & _ & Hn)|(Hd & _ & Hv & _)]); [contradiction|].
  assert (Hv1 : last_value k r1 = Some "DELETED").
  { rewrite (view_eq_value _ _ _ Hv), last_value_snoc. cbn [rec_key fst snd].
    now rewrite String.eqb_refl. }
  subst s'. rewrite Hd. cbn [fst snd].
  destruct (run_ops_no_put k later _ _ HR1 Ht Hl Hv1) as (r2 & HR2 & Hv2).
  assert (Hs : stored_value k (run_ops later s1) = Some "DELETED")
    by (now rewrite (stored_value_Rep _ _ _ HR2)).
  split; [reflexivity|]. split; [|split; [|split]].
  - now rewrite (read_Rep _ _ _ HR2), Hv2.
  - rewrite (handle_READ _ _ _ _ k) by assumption.
    now rewrite (read_Rep _ _ _ HR2), Hv2.
  - now apply (stored_value_mem k "DELETED").
  - exact Hs.
Qed.

Lemma delete_hides_witness :
  let s' := run_ops [Put 7 "b" "x"; Delete 8 "a"]
                    (fst (delete 6 "a" (run_ops [Put 5 "a" "1"] fresh))) in
  snd (read "a" s') = Ret None /\
  sent (snd (handle (fun _ => "") (fun _ => "") 9 ("READ a" ++ nl)%string s')) =
    ("OK NULL" ++ nl)%string.
Proof.
  pose proof (delete_hides (fun _ => "") (fun _ => "")
                (run_ops [Put 5 "a" "1"] fresh)
                [Put 7 "b" "x"; Delete 8 "a"] 6 9 "a" ("READ a" ++ nl)%string) as H.
  cbv zeta in *.
  refine ((fun X => conj (proj1 (proj2 X)) (proj1 (proj2 (proj2 X))))
            (H _ _ _ _ _ _)).
  - apply run_ops_consistent; [apply fresh_consistent | repeat constructor].
  - reflexivity.
  - reflexivity.
  - repeat constructor.
  - repeat constructor; discriminate.
  - reflexivity.
Defined.

(** ** C6: where compaction is considered *)







(** ** C7: what compaction leaves *)

Lemma Rep_invariants (recs : list record) (s : store) :
  Rep recs s -> invariants s.
Proof.
  intros HR. exists recs. destruct (Rep_counters _ _ HR) as (H1 & _ & H3).
  split; [now apply Rep_Indexed | auto].
Qed.

Lemma consistent_invariants (s : store) : consistent s -> invariants s.
Proof. intros [recs HR]. now apply (Rep_invariants recs). Qed.

(** Invariant 1 spelled out: an entry of the index delimits a record of the
    log, and that record decodes to the key, the indexed timestamp and a
    value. *)
Lemma invariants_entry (s : store) (k : str) (pos size ts : N) :
  invariants s ->
  dict_get k (keys s) = Some (pos, size, ts) ->
  exists data v,
    disk s = Some data /\ wf_rec (ts, k, v) /\
    pread data pos size = encode_rec (ts, k, v) /\
    read_value data pos = Ret v.
Proof.
  intros (recs & HI & _) Hg.
  destruct (Indexed_pread _ _ _ _ _ _ HI Hg)
    as (r & _ & Hw & Hk & Hs & Ht & Hp & Hv).
  exists (encode_log recs), (rec_value r).
  split; [now apply (Indexed_disk _ _ _ _ HI Hg)|].
  destruct r as [[t k'] v]. cbn [rec_key rec_ts rec_value fst snd] in *.
  subst k' ts. auto.
Qed.

(** C7 as the code has it.  On a state that satisfies the invariants and
    whose data file exists, compaction returns; the new state satisfies the
    invariants, [deleted_size] is zero, [data_size] is the length of the new
    file, and the new file holds exactly one record for each key of the
    index, the keys whose record is a tombstone included.  The index keeps
    its keys and every key its stored value. *)
Theorem compaction_postcondition (s : store) :
  invariants s -> disk s <> None ->
  exists s',
    _compact s = (s', Ret tt) /\
    invariants s' /\
    deleted_size s' = 0 /\
    data_size s' = len (log_bytes s') /\
    one_record_per (dict_keys (keys s')) s' /\
    dict_keys (keys s') = dict_keys (keys s) /\
    forall k, stored_value k s' = stored_value k s.
Proof.
  intros (recs & HI & _) Hd.
  destruct (compact_Indexed recs s HI Hd)
    as (s' & Hc & HR' & Hv & Hk & Hks & Hdisk & Hds & Hdel & _).
  exists s'. split; [assumption|]. split; [now apply (Rep_invariants _ _ HR')|].
  split; [assumption|].
  assert (Hkeys : dict_keys (keys s') = dict_keys (keys s))
    by (now rewrite Hks, layout_keys).
  split; [now apply (Rep_file_length _ _ HR')|]. split; [|split; [assumption|]].
  - exists (compacted recs (keys s)). destruct HR' as (Hwf & _).
    split; [assumption|]. split; [assumption|].
    rewrite Hkeys, Hk. apply Permutation_refl.
  - intros k. rewrite (stored_value_Rep _ _ _ HR'), (stored_value_Indexed _ _ _ HI).
    now rewrite !last_value_record, Hv.
Qed.

Lemma compaction_postcondition_witness :
  exists s',
    _compact (run_ops [Put 5 "a" "1"; Put 6 "b" "2"; Put 7 "a" "3"] fresh) =
      (s', Ret tt) /\
    deleted_size s' = 0.
Proof.
  destruct (compaction_postcondition
              (run_ops [Put 5 "a" "1"; Put 6 "b" "2"; Put 7 "a" "3"] fresh))
    as (s' & H1 & _ & H2 & _).
  - apply consistent_invariants, run_ops_consistent;
      [apply fresh_consistent | repeat constructor].
  - discriminate.
  - exists s'. split; assumption.
Defined.

(** C7 as stated fails.  After a put and a delete of the same key the
    invariants hold and no key is live, yet the compacted file is the
    24-byte tombstone record, not the empty log that one record per live key
    would be.  And the invariants hold of the fresh store, where compaction
    raises because there is no file to open. *)
Lemma compaction_keeps_tombstones :
  (let s := run_ops [Put 5 "k" "v"; Delete 6 "k"] fresh in
   invariants s /\
   snd (_compact s) = Ret tt /\
   live_keys (fst (_compact s)) = [] /\
   len (log_bytes (fst (_compact s))) = 24 /\
   ~ one_record_per (live_keys (fst (_compact s))) (fst (_compact s))) /\
  (invariants fresh /\ snd (_compact fresh) = Raise FileNotFoundError).
Proof.
  split; [|split; [apply consistent_invariants, fresh_consistent | reflexivity]].
  cbv zeta. split.
  { apply consistent_invariants, run_ops_consistent;
      [apply fresh_consistent | repeat constructor]. }
  split; [vm_compute; reflexivity|].
  assert (E : live_keys (fst (_compact (run_ops [Put 5 "k" "v"; Delete 6 "k"] fresh)))
              = []) by (vm_compute; reflexivity).
  split; [exact E|]. split; [vm_compute; reflexivity|].
  rewrite E. intros (recs & _ & Hd & Hp).
  apply Permutation_sym, Permutation_nil, map_eq_nil in Hp. subst recs.
  vm_compute in Hd. discriminate.
Qed.

(** ** C8: the counters *)

(** C8.  After any sequence of puts, deletes, batch puts and recoveries on a
    fresh store, [data_size] is the byte length of the data file,
    [deleted_size] is the sum of the sizes of the records of the log whose
    offset no index entry references, and [deleted_size <= data_size]. *)
Theorem counter_consistency (ops : list op) :
  Forall typed_op ops ->
  data_size (run_ops ops fresh) = len (log_bytes (run_ops ops fresh)) /\
  (exists recs,
     Forall wf_rec recs /\
     log_bytes (run_ops ops fresh) = encode_log recs /\
     deleted_size (run_ops ops fresh) =
       unreferenced_bytes recs 0 (keys (run_ops ops fresh))) /\
  deleted_size (run_ops ops fresh) <= data_size (run_ops ops fresh).
Proof.
  intros Ht.
  destruct (run_ops_consistent ops fresh fresh_consistent Ht) as [recs HR].
  destruct (Rep_counters _ _ HR) as (H1 & H2 & H3).
  split; [assumption|]. split; [|assumption].
  exists recs. destruct HR as (Hwf & Hb & _). auto.
Qed.

Lemma counter_consistency_witness :
  let s := run_ops [Put 5 "a" "1"; Put 6 "a" "2";
                    BatchPut (fun _ => 7) [("b", "3"); ("a", "4")];
                    Delete 8 "b"; Reopen] fresh in
  data_size s = len (log_bytes s) /\ deleted_size s <= data_size s.
Proof.
  pose proof (counter_consistency
                [Put 5 "a" "1"; Put 6 "a" "2";
                 BatchPut (fun _ => 7) [("b", "3"); ("a", "4")];
                 Delete 8 "b"; Reopen]) as H.
  refine ((fun X => conj (proj1 X) (proj2 (proj2 X))) (H _)).
  repeat constructor.
Defined.

(** ** C9: range reads *)

(** On a consistent state whose data file exists, the range read returns
    the live keys of the range with their values, in ascending key order. *)
Lemma range_read_correct (s : store) (start_key end_key : str) :
  consistent s -> disk s <> None ->
  exists result,
    read_key_range start_key end_key s = (s, Ret result) /\
    (forall k v,
       In (k, v) result <->
       dict_mem k (keys s) = true /\
       String.leb start_key k = true /\ String.leb k end_key = true /\
       stored_value k s = Some v /\ v <> "DELETED") /\
    StronglySorted (fun x y => String.ltb x y = true) (map fst result).
Proof.
  intros [recs HR] Hd. pose proof (Rep_Indexed _ _ HR) as HI.
  eexists. split; [now apply (read_key_range_Indexed recs)|]. split.
  - intros k v. rewrite range_result_In, sorted_In, dict_mem_true. tauto.
  - destruct (range_result_keys start_key end_key s
                (sorted (dict_keys (keys s)))) as (keep & ->).
    apply StronglySorted_strict.
    + apply StronglySorted_filter, sorted_StronglySorted.
    + apply NoDup_filter, sorted_NoDup. now apply (Rep_NoDup recs).
Qed.

(** C9 (the code does not do this on a store without data file).  A store
    constructed where no data file exists is empty, and a range read over it
    is to return the empty list, as [read] returns nothing there; but
    [read_key_range] opens the data file whatever the selection and raises. *)
Theorem range_read_missing_file (start_key end_key : str) :
  snd (__init__ None) = Ret tt /\
  snd (read_key_range start_key end_key (fst (__init__ None))) =
    Raise FileNotFoundError /\
  snd (read start_key (fst (__init__ None))) = Ret None.
Proof. repeat split. Qed.

(** ** C10: a stored value NULL reads like a missing key *)

(** C10.  When the value stored under [k] is the string NULL, the handler
    answers READ [k] with the line "OK NULL", the very line it sends for a
    key that is not in the index or whose record is a tombstone. *)
Theorem read_null_ambiguous
    (json_dumps : list (str * str) -> str) (exn_text : exn -> str)
    (now : N) (s : store) (k received : str) :
  stored_value k s = Some "NULL" ->
  strip received = ("READ " ++ k)%string ->
  sent (snd (handle json_dumps exn_text now received s)) = ("OK NULL" ++ nl)%string /\
  forall k' received',
    strip received' = ("READ " ++ k')%string ->
    dict_get k' (keys s) = None \/ stored_value k' s = Some "DELETED" ->
    snd (handle json_dumps exn_text now received' s) =
    snd (handle json_dumps exn_text now received s).
Proof.
  intros Hv Hr.
  assert (E : handle json_dumps exn_text now received s =
              (s, mkReply ("OK NULL" ++ nl)%string false)).
  { rewrite (handle_READ _ _ _ _ k) by assumption.
    now rewrite (read_of_stored _ _ _ Hv). }
  rewrite E. split; [reflexivity|].
  intros k' received' Hr' Hk.
  rewrite (handle_READ _ _ _ _ k') by assumption.
  destruct Hk as [Hk|Hk].
  - unfold read. now rewrite Hk.
  - now rewrite (read_of_stored _ _ _ Hk).
Qed.

Lemma read_null_ambiguous_witness :
  let s := fst (put 5 "k" "NULL" fresh) in
  sent (snd (handle (fun _ => "") (fun _ => "") 6 ("READ k" ++ nl)%string s)) =
  ("OK NULL" ++ nl)%string.
Proof.
  refine (proj1 (read_null_ambiguous (fun _ => "") (fun _ => "") 6
                   (fst (put 5 "k" "NULL" fresh)) "k" ("READ k" ++ nl)%string
                   _ _)).
  - vm_compute. reflexivity.
  - vm_compute. reflexivity.
Defined.

(** * Further properties of the engine *)

(** ** Recovery of a complete log *)

Lemma log_size_app (a b : list record) :
  log_size (a ++ b) = log_size a + log_size b.
Proof.
  rewrite <- !encode_log_length, encode_log_app. apply len_app.
Qed.

Lemma log_Rep (recs : list record) (s : store) :
  Forall wf_rec recs ->
  __init__ (Some (encode_log recs)) = (s, Ret tt) ->
  Rep recs s /\ disk s = Some (encode_log recs).
Proof.
  intros Hwf H. unfold __init__ in H.
  rewrite (load_from_disk_log recs) in H by (assumption || reflexivity).
  injection H as <-. unfold with_fields. cbn [disk trace].
  destruct (replay recs) as [[ks d] g] eqn:E.
  split; [|reflexivity]. split; [assumption|]. split; [reflexivity|].
  cbn [keys data_size deleted_size]. now rewrite E.
Qed.

(** X1.  Constructing the store over any file that is a sequence of complete
    well-formed records succeeds: the index has exactly the keys that occur
    in the log, each entry points at the value of the last record of its
    key, [data_size] is the length of the file and [deleted_size] the bytes
    of the records that the index does not reference. *)
Theorem recovery_of_log (recs : list record) :
  Forall wf_rec recs ->
  exists s,
    __init__ (Some (encode_log recs)) = (s, Ret tt) /\
    (forall k, In k (dict_keys (keys s)) <-> In k (map rec_key recs)) /\
    (forall k, stored_value k s = last_value k recs) /\
    data_size s = len (encode_log recs) /\
    deleted_size s = unreferenced_bytes recs 0 (keys s).
Proof.
  intros Hwf.
  destruct (__init__ (Some (encode_log recs))) as [s r] eqn:E.
  assert (Hr : r = Ret tt).
  { unfold __init__ in E.
    rewrite (load_from_disk_log recs) in E by (assumption || reflexivity).
    now injection E as _ <-. }
  subst r. destruct (log_Rep _ _ Hwf E) as [HR Hd].
  exists s. split; [reflexivity|].
  destruct (Rep_counters _ _ HR) as (H1 & H2 & _).
  split; [|split; [|split]].
  - intros k. rewrite <- dict_mem_true, (Rep_mem _ _ k HR), last_value_record.
    destruct (last_record k recs) as [x|] eqn:El.
    + destruct (last_record_In _ _ _ El) as [Hin <-].
      split; [intros _; now apply in_map | discriminate].
    + pose proof El as Hn. apply last_record_None in Hn.
      split; [intros H; now contradiction H | intros H; contradiction].
  - intros k. now apply stored_value_Rep.
  - rewrite H1. unfold log_bytes. now rewrite Hd.
  - exact H2.
Qed.

Lemma recovery_of_log_witness :
  exists s,
    __init__ (Some (encode_log [(5, "a", "1"); (6, "b", "2"); (7, "a", "3")])) =
      (s, Ret tt) /\
    stored_value "a" s = Some "3".
Proof.
  destruct (recovery_of_log [(5, "a", "1"); (6, "b", "2"); (7, "a", "3")])
    as (s & H1 & _ & H2 & _).
  - repeat constructor.
  - exists s. split; [exact H1 | exact (H2 "a")].
Defined.

(** ** Nothing is held in memory only *)

(** X2.  After any sequence of puts, deletes, batch puts and recoveries, reading
    the data file again gives back the very index and counters the engine
    has in memory. *)
Theorem reopen_changes_nothing (ops : list op) :
  Forall typed_op ops ->
  reopen (run_ops ops fresh) = (run_ops ops fresh, Ret tt).
Proof.
  intros Ht.
  destruct (run_ops_consistent ops fresh fresh_consistent Ht) as [recs HR].
  now apply (reopen_Rep recs).
Qed.

Lemma reopen_changes_nothing_witness :
  let ops := [Put 5 "a" "1"; BatchPut (fun _ => 6) [("b", "2"); ("a", "3")];
              Delete 7 "b"; Put 8 "a" "4"] in
  reopen (run_ops ops fresh) = (run_ops ops fresh, Ret tt).
Proof.
  apply (reopen_changes_nothing
           [Put 5 "a" "1"; BatchPut (fun _ => 6) [("b", "2"); ("a", "3")];
            Delete 7 "b"; Put 8 "a" "4"]).
  repeat constructor.
Defined.

(** ** The index entries stay inside the file *)

(** X3.  After any sequence of operations, every entry of the index delimits
    bytes of the data file that are the encoding of a record of its key with
    the indexed timestamp, and [read]'s decoding of it returns its value. *)
Theorem index_entries_valid (ops : list op) (k : str) (pos size ts : N) :
  Forall typed_op ops ->
  dict_get k (keys (run_ops ops fresh)) = Some (pos, size, ts) ->
  exists data v,
    disk (run_ops ops fresh) = Some data /\
    pos + size <= len data /\
    size = 16 + len (encode k) + len (encode v) /\
    pread data pos size = encode_rec (ts, k, v) /\
    read_value data pos = Ret v.
Proof.
  intros Ht Hg.
  destruct (run_ops_consistent ops fresh fresh_consistent Ht) as [recs HR].
  pose proof (Rep_Indexed _ _ HR) as HI.
  destruct (Indexed_entry _ _ _ _ _ _ HI Hg)
    as (pre & r & post & E & _ & _ & Hk & Hp & Hs & Hts).
  destruct (Indexed_pread _ _ _ _ _ _ HI Hg)
    as (r' & Hl' & _ & Hk' & Hs' & Ht' & Hpr & Hv).
  exists (encode_log recs), (rec_value r').
  split; [now apply (Indexed_disk _ _ _ _ HI Hg)|].
  split; [|split; [|split]].
  - rewrite encode_log_length, E, log_size_app, Hp, Hs.
    cbn [log_size fold_right]. lia.
  - rewrite Hs'. unfold rec_size. now rewrite Hk'.
  - rewrite Hpr. destruct r' as [[t k'] v]. cbn in *. now subst.
  - exact Hv.
Qed.

Lemma index_entries_valid_witness :
  exists data v,
    disk (run_ops [Put 5 "a" "1"; Put 6 "a" "22"] fresh) = Some data /\
    read_value data 18 = Ret v.
Proof.
  destruct (index_entries_valid [Put 5 "a" "1"; Put 6 "a" "22"] "a" 18 19 6)
    as (data & v & H1 & _ & _ & _ & H2).
  - repeat constructor.
  - reflexivity.
  - exists data, v. split; assumption.
Defined.

Lemma app_cons_split {A} (pre : list A) :
  forall (pre' post post' : list A) (r r' : A),
    pre ++ r :: post = pre' ++ r' :: post' -> r <> r' ->
    (exists m, pre' = pre ++ r :: m) \/ (exists m, pre = pre' ++ r' :: m).
Proof.
  induction pre as [|a pre IH]; intros [|b pre'] post post' r r' E Hn;
    cbn [app] in E; injection E as E1 E2.
  - contradiction.
  - left. exists pre'. now subst.
  - right. exists pre. now subst.
  - subst b. destruct (IH pre' post post' r r' E2 Hn) as [[m ->]|[m ->]].
    + left. now exists m.
    + right. now exists m.
Qed.

(** X4.  After any sequence of operations, the index entries of two different
    keys delimit byte ranges of the data file that do not overlap. *)
Theorem index_entries_disjoint (ops : list op) (k k' : str)
    (pos size ts pos' size' ts' : N) :
  Forall typed_op ops -> k <> k' ->
  dict_get k (keys (run_ops ops fresh)) = Some (pos, size, ts) ->
  dict_get k' (keys (run_ops ops fresh)) = Some (pos', size', ts') ->
  pos + size <= pos' \/ pos' + size' <= pos.
Proof.
  intros Ht Hk Hg Hg'.
  destruct (run_ops_consistent ops fresh fresh_consistent Ht) as [recs HR].
  pose proof (Rep_Indexed _ _ HR) as HI.
  destruct (Indexed_entry _ _ _ _ _ _ HI Hg)
    as (pre & r & post & E & _ & _ & Hr & Hp & Hs & _).
  destruct (Indexed_entry _ _ _ _ _ _ HI Hg')
    as (pre' & r' & post' & E' & _ & _ & Hr' & Hp' & Hs' & _).
  assert (Hn : r <> r') by congruence.
  rewrite E in E'.
  destruct (app_cons_split pre pre' post post' r r' E' Hn) as [[m ->]|[m ->]].
  - left. rewrite Hp', Hp, Hs, log_size_app. cbn [log_size fold_right]. lia.
  - right. rewrite Hp', Hp, Hs', log_size_app. cbn [log_size fold_right]. lia.
Qed.

Lemma index_entries_disjoint_witness :
  dict_get "a" (keys (run_ops [Put 5 "a" "1"; Put 6 "b" "2"] fresh)) =
    Some (0, 18, 5) /\
  dict_get "b" (keys (run_ops [Put 5 "a" "1"; Put 6 "b" "2"] fresh)) =
    Some (18, 18, 6) /\
  (0 + 18 <= 18 \/ 18 + 18 <= 0).
Proof.
  split; [reflexivity|]. split; [reflexivity|].
  apply (index_entries_disjoint [Put 5 "a" "1"; Put 6 "b" "2"] "a" "b"
                                0 18 5 18 18 6).
  - repeat constructor.
  - discriminate.
  - reflexivity.
  - reflexivity.
Defined.

(** ** Recovery only reads *)

Lemma load_entry_disk (f f' : reader) (s s' : store) :
  load_entry f s = Continue f' s' -> disk s' = disk s.
Proof.
  unfold load_entry. destruct (f_read 16 f) as [header f1].
  destruct header as [|h0 header]; [discriminate|].
  destruct (struct_unpack (h0 :: header)) as [[[ts ks] vs]|e]; [|discriminate].
  destruct (f_read ks f1) as [key_bytes f2].
  destruct (decode key_bytes) as [key|e]; [|discriminate].
  destruct (f_read vs f2) as [value f3].
  intros [= _ <-]. reflexivity.
Qed.

Lemma load_loop_disk (f : reader) (s : store) :
  disk (fst (load_loop f s)) = disk s.
Proof.
  funelim (load_loop f s); try reflexivity.
  match goal with
  | IH : disk (fst (load_loop ?g ?t)) = disk ?t,
    E : load_entry _ _ = Continue ?g ?t |- _ =>
    rewrite IH; exact (load_entry_disk _ _ _ _ E)
  end.
Qed.

(** X5.  Recovery only reads.  Whatever bytes the data file holds, and whether
    the replay returns or raises, the file is left as it was found: a
    damaged tail is neither cut off nor repaired. *)
Theorem recovery_reads_only (d : option bytes) :
  disk (fst (__init__ d)) = d.
Proof.
  unfold __init__, _load_from_disk. cbn [disk trace].
  destruct d as [data|]; [|reflexivity].
  now rewrite load_loop_disk.
Qed.

(** ** Compaction twice, and what compaction reclaims *)

Lemma compacted_layout_sub (rc sub : list record) (off : N) :
  NoDup (map rec_key rc) ->
  (forall r, In r sub -> In r rc) ->
  compacted rc (layout sub off) = sub.
Proof.
  intros Hnd. revert off. induction sub as [|r sub IH]; intros off Hin.
  - reflexivity.
  - unfold compacted. cbn [layout flat_map fst].
    rewrite (last_record_unique rc r Hnd) by (apply Hin; now left).
    cbn [app]. f_equal. apply IH. intros x Hx. apply Hin. now right.
Qed.

Lemma invariants_compact (s : store) :
  invariants s -> disk s <> None ->
  exists rc s1,
    _compact s = (s1, Ret tt) /\ Rep rc s1 /\
    NoDup (map rec_key rc) /\
    keys s1 = layout rc 0 /\
    disk s1 = Some (encode_log rc) /\
    data_size s1 = len (encode_log rc) /\
    deleted_size s1 = 0.
Proof.
  intros (recs & HI & _) Hd.
  destruct (compact_Indexed recs s HI Hd)
    as (s1 & Hc & HR & _ & Hk & Hks & Hdisk & Hds & Hdel & _).
  exists (compacted recs (keys s)), s1.
  repeat (split; [assumption|]). split; [|auto].
  rewrite Hk. now apply (Indexed_NoDup recs).
Qed.

(** X6.  Compacting a second time changes nothing: the file, the index and the
    counters are what the first compaction left. *)
Theorem compaction_idempotent (s : store) :
  invariants s -> disk s <> None ->
  snd (_compact (fst (_compact s))) = Ret tt /\
  disk (fst (_compact (fst (_compact s)))) = disk (fst (_compact s)) /\
  keys (fst (_compact (fst (_compact s)))) = keys (fst (_compact s)) /\
  data_size (fst (_compact (fst (_compact s)))) = data_size (fst (_compact s)) /\
  deleted_size (fst (_compact (fst (_compact s)))) = deleted_size (fst (_compact s)).
Proof.
  intros Hinv Hd.
  destruct (invariants_compact s Hinv Hd)
    as (rc & s1 & Hc & HR & Hnd & Hks & Hdisk & Hds & Hdel).
  rewrite Hc. cbn [fst].
  assert (Hd1 : disk s1 <> None) by (rewrite Hdisk; discriminate).
  destruct (compact_Rep rc s1 HR Hd1)
    as (s2 & Hc2 & _ & _ & _ & Hks2 & Hdisk2 & Hds2 & Hdel2 & _).
  rewrite Hc2. cbn [fst snd].
  assert (E : compacted rc (keys s1) = rc)
    by (rewrite Hks; now apply compacted_layout_sub).
  rewrite E in *.
  split; [reflexivity|]. split; [congruence|]. split; [congruence|].
  split; congruence.
Qed.

Lemma compaction_idempotent_witness :
  let s := run_ops [Put 5 "a" "1"; Put 6 "b" "2"; Put 7 "a" "3"; Delete 8 "b"]
                   fresh in
  disk (fst (_compact (fst (_compact s)))) = disk (fst (_compact s)).
Proof.
  refine (proj1 (proj2 (compaction_idempotent
                          (run_ops [Put 5 "a" "1"; Put 6 "b" "2"; Put 7 "a" "3";
                                    Delete 8 "b"] fresh) _ _))).
  - apply consistent_invariants, run_ops_consistent;
      [apply fresh_consistent | repeat constructor].
  - discriminate.
Defined.

Lemma last_records_split (recs : list record) :
  log_size (last_records recs) + superseded recs = log_size recs.
Proof.
  induction recs as [|r recs IH]; [reflexivity|].
  cbn [last_records superseded log_size fold_right]. fold (log_size recs).
  destruct (existsb _ recs); cbn [log_size fold_right];
    fold (log_size (last_records recs)); lia.
Qed.

Lemma last_records_In (recs : list record) (r : record) :
  In r (last_records recs) <-> last_record (rec_key r) recs = Some r.
Proof.
  induction recs as [|a recs IH]; cbn [last_records last_record].
  - split; [contradiction | discriminate].
  - destruct (existsb (fun x => String.eqb (rec_key x) (rec_key a)) recs) eqn:Ex.
    + rewrite IH. destruct (last_record (rec_key r) recs) as [x|] eqn:El;
        [tauto|].
      split; [discriminate|].
      destruct (String.eqb_spec (rec_key a) (rec_key r)) as [Ek|]; [|discriminate].
      intros _. rewrite <- Ek in El.
      apply existsb_key_last_record in El. congruence.
    + apply existsb_key_last_record in Ex. cbn [In]. rewrite IH.
      destruct (last_record (rec_key r) recs) as [x|] eqn:El.
      * split; [|tauto]. intros [->|H]; [congruence | exact H].
      * destruct (String.eqb_spec (rec_key a) (rec_key r)) as [Ek|Ek].
        -- split; [intros [->|H]; [reflexivity | discriminate] |].
           intros [= ->]. now left.
        -- split; [intros [->|H]; [contradiction | discriminate] | discriminate].
Qed.

Lemma last_records_NoDup (recs : list record) : NoDup (last_records recs).
Proof.
  induction recs as [|a recs IH]; cbn [last_records]; [constructor|].
  destruct (existsb (fun x => String.eqb (rec_key x) (rec_key a)) recs) eqn:Ex;
    [assumption|].
  constructor; [|assumption]. intros Hin.
  apply last_records_In in Hin. apply existsb_key_last_record in Ex.
  congruence.
Qed.

Lemma log_size_Permutation (a b : list record) :
  Permutation a b -> log_size a = log_size b.
Proof.
  induction 1; cbn [log_size fold_right] in *;
    repeat match goal with
           | |- context [fold_right _ 0 ?l] => fold (log_size l)
           | H : context [fold_right _ 0 ?l] |- _ => fold (log_size l) in H
           end; lia.
Qed.

Lemma compacted_last_records (recs : list record) (s : store) :
  Indexed recs s ->
  Permutation (compacted recs (keys s)) (last_records recs).
Proof.
  intros HI. pose proof HI as (_ & _ & Hnd & Hi).
  assert (Hsome : forall item, In item (keys s) ->
                    exists r, last_record (fst item) recs = Some r /\
                              rec_key r = fst item).
  { intros [k [[pos size] ts]] Hin. apply In_dict_get in Hin; [|assumption].
    destruct (Indexed_pread _ _ _ _ _ _ HI Hin) as (r & H1 & _ & H3 & _).
    exists r. auto. }
  apply NoDup_Permutation.
  - apply (NoDup_map_inv rec_key). rewrite compacted_keys; [assumption|].
    now apply Forall_forall.
  - apply last_records_NoDup.
  - intros r. rewrite last_records_In. split.
    + intros Hin. destruct (compacted_In _ _ _ Hin) as (item & _ & Hl).
      destruct (last_record_In _ _ _ Hl) as [_ Hk]. now rewrite Hk.
    + intros Hl.
      destruct (dict_get (rec_key r) (keys s)) as [e|] eqn:Eg.
      * apply dict_get_In in Eg. now apply (In_compacted _ _ _ _ Eg).
      * rewrite (Indexed_absent _ _ _ HI Eg) in Hl. discriminate.
Qed.

(** X7.  In a consistent state whose data file exists, compaction shortens the
    file by exactly [deleted_size] bytes; the file gets strictly smaller
    whenever there is garbage. *)
Theorem compaction_reclaims (s : store) :
  consistent s -> disk s <> None ->
  snd (_compact s) = Ret tt /\
  data_size (fst (_compact s)) + deleted_size s = data_size s /\
  len (log_bytes (fst (_compact s))) + deleted_size s = len (log_bytes s) /\
  (0 < deleted_size s ->
   len (log_bytes (fst (_compact s))) < len (log_bytes s)).
Proof.
  intros [recs HR] Hd. pose proof (Rep_Indexed _ _ HR) as HI.
  destruct (compact_Rep recs s HR Hd)
    as (s1 & Hc & HR1 & _ & _ & _ & Hdisk & Hds & _).
  rewrite Hc. cbn [fst snd].
  assert (E : data_size s1 + deleted_size s = data_size s).
  { rewrite Hds, encode_log_length, (Rep_data_size _ _ HR).
    rewrite (log_size_Permutation _ _ (compacted_last_records _ _ HI)).
    destruct HR as (_ & _ & Hf). 
    assert (Hdel : deleted_size s = superseded recs)
      by (rewrite <- replay_deleted, <- Hf; reflexivity).
    rewrite Hdel. apply last_records_split. }
  rewrite <- (Rep_file_length _ _ HR1), <- (Rep_file_length _ _ HR).
  split; [reflexivity|]. split; [assumption|]. split; [assumption|]. lia.
Qed.

Lemma compaction_reclaims_witness :
  let s := run_ops [Put 5 "a" "1"; Put 6 "b" "2"; Put 7 "a" "3"] fresh in
  len (log_bytes (fst (_compact s))) < len (log_bytes s).
Proof.
  refine (proj2 (proj2 (proj2 (compaction_reclaims
            (run_ops [Put 5 "a" "1"; Put 6 "b" "2"; Put 7 "a" "3"] fresh) _ _))) _).
  - apply run_ops_consistent; [apply fresh_consistent | repeat constructor].
  - discriminate.
  - reflexivity.
Defined.

(** ** The keys of the index *)

Lemma write_entry_keys (now : N) (k v : str) (s : store) :
  exists c,
    dict_keys (keys (fst (write_entry now k v s))) = dict_keys (keys s) ++ c.
Proof.
  unfold write_entry, bind, lift.
  destruct (struct_pack now (len (encode k)) (len (encode v))).
  - unfold append_record, index_update. cbn [fst keys].
    rewrite dict_keys_set. destruct (dict_mem k (keys s)).
    + exists []. now rewrite app_nil_r.
    + now exists [k].
  - exists []. cbn [fst]. now rewrite app_nil_r.
Qed.

Lemma batch_loop_keys (items : list (str * str)) :
  forall (clock : nat -> N) (i : nat) (s : store),
  exists c,
    dict_keys (keys (fst (batch_loop clock i items s))) = dict_keys (keys s) ++ c.
Proof.
  induction items as [|[k v] items IH]; intros clock i s.
  - exists []. cbn. now rewrite app_nil_r.
  - cbn [batch_loop]. unfold bind.
    destruct (write_entry_keys (clock i) k v s) as [c Hc].
    destruct (write_entry (clock i) k v s) as [s1 [[]|e]]; cbn [fst] in *.
    + destruct (IH clock (S i) s1) as [c' Hc']. exists (c ++ c').
      now rewrite Hc', Hc, app_assoc.
    + now exists c.
Qed.

Lemma run_op_keys (recs : list record) (s : store) (o : op) :
  Rep recs s -> typed_op o ->
  exists c, dict_keys (keys (run_op o s)) = dict_keys (keys s) ++ c.
Proof.
  intros HR Ht. destruct o as [now k v|now k|clock items|]; cbn [run_op].
  - destruct (consider_compaction_Rep _ _ HR) as (r1 & s1 & Hc & _ & _ & Hk & _).
    unfold put, bind. rewrite Hc.
    destruct (write_entry_keys now k v s1) as [c Hw]. exists c.
    rewrite <- Hk, <- Hw.
    now destruct (write_entry now k v s1) as [s2 [[]|e]].
  - exists []. rewrite app_nil_r. destruct (dict_mem k (keys s)) eqn:Hm.
    + destruct (delete_Rep recs now k s HR Hm)
        as (recs' & s' & _ & [(Hp & -> & _)|(Hp & _ & _ & Hk)]);
        now rewrite Hp.
    + now rewrite delete_absent.
  - destruct (consider_compaction_Rep _ _ HR) as (r1 & s1 & Hc & _ & _ & Hk & _).
    unfold batch_put, bind. rewrite Hc. unfold open_append at 1.
    match goal with
    | |- context [batch_loop clock 0%nat items ?s2] =>
      destruct (batch_loop_keys items clock 0%nat s2) as [c Hb];
      destruct (batch_loop clock 0%nat items s2) as [s3 [[]|e]]
    end; unfold ret; cbn [fst keys] in *; exists c; now rewrite Hb, Hk.
  - exists []. rewrite app_nil_r. now rewrite (reopen_Rep recs).
Qed.

(** X8.  No operation removes a key from the index or moves it: through any
    sequence of puts, deletes, batches and restarts the keys the index had
    stay where they were, and new keys go to the end. *)
Theorem index_keys_kept (ops : list op) (s : store) :
  consistent s -> Forall typed_op ops ->
  exists c, dict_keys (keys (run_ops ops s)) = dict_keys (keys s) ++ c.
Proof.
  revert s. induction ops as [|o ops IH]; intros s Hc Ht.
  - exists []. cbn. now rewrite app_nil_r.
  - inversion Ht as [|? ? Ho Ht']; subst. rewrite run_ops_cons.
    destruct Hc as [recs HR].
    destruct (run_op_keys _ _ _ HR Ho) as [c1 H1].
    destruct (run_op_Rep _ _ _ HR Ho) as (recs' & _ & HR' & _).
    destruct (IH (run_op o s) (ex_intro _ recs' HR') Ht') as [c2 H2].
    exists (c1 ++ c2). now rewrite H2, H1, app_assoc.
Qed.

Lemma index_keys_kept_witness :
  exists c,
    dict_keys (keys (run_ops [Delete 7 "a"; Put 8 "c" "3"; Reopen]
                             (run_ops [Put 5 "a" "1"; Put 6 "b" "2"] fresh))) =
    dict_keys (keys (run_ops [Put 5 "a" "1"; Put 6 "b" "2"] fresh)) ++ c.
Proof.
  apply index_keys_kept.
  - apply run_ops_consistent; [apply fresh_consistent | repeat constructor].
  - repeat constructor.
Defined.

(** ** Deleting *)

Lemma delete_present (recs : list record) (now : N) (k : str) (s : store) :
  Rep recs s -> dict_mem k (keys s) = true -> now < 2 ^ 64 ->
  exists recs' s',
    delete now k s = (s', Ret true) /\ Rep recs' s' /\
    view_eq recs' (recs ++ [(now, k, "DELETED")]) /\
    dict_mem k (keys s') = true /\
    compaction_due s' = false.
Proof.
  intros HR Hm Hn. destruct (Rep_key_wf _ _ _ HR Hm) as [Wk Lk].
  unfold delete. rewrite Hm. cbn [negb]. unfold bind.
  assert (Hw : wf_rec (now, k, "DELETED")).
  { repeat split; try assumption. }
  destruct (write_entry_Rep _ _ _ _ _ HR Hw) as (s1 & Hwr & HR1 & _).
  destruct (consider_compaction_Rep _ _ HR1)
    as (r2 & s2 & Hc & HR2 & Hv2 & Hk2 & Hdue & _).
  exists r2, s2. rewrite Hwr, Hc. split; [reflexivity|].
  split; [assumption|]. split; [assumption|]. split; [|assumption].
  apply dict_mem_true. rewrite Hk2.
  unfold write_entry, bind, lift in Hwr.
  destruct (struct_pack _ _ _); [|discriminate].
  unfold append_record, index_update in Hwr. injection Hwr as <-.
  cbn [keys]. rewrite dict_keys_set, Hm. now apply dict_mem_true.
Qed.



(** ** Writing *)

Lemma not_fits_raises (now : N) (k v : str) :
  ~ fits now k v ->
  struct_pack now (len (encode k)) (len (encode v)) = Raise StructError.
Proof.
  intros Hn.
  destruct (struct_pack_cases now (len (encode k)) (len (encode v)))
    as [H|H]; [exact H | contradiction].
Qed.



(** X11.  The data file is append-only outside compaction: when no compaction is
    due, a put whose header fields fit adds the encoded record at the end of
    the file and changes no byte before it; the key's index entry points at
    the old end of the file and no other entry changes. *)
Theorem put_appends (now : N) (k v : str) (s : store) :
  compaction_due s = false -> fits now k v ->
  snd (put now k v s) = Ret true /\
  log_bytes (fst (put now k v s)) = log_bytes s ++ encode_rec (now, k, v) /\
  dict_get k (keys (fst (put now k v s))) =
    Some (len (log_bytes s), rec_size (now, k, v), now) /\
  (forall k', k <> k' ->
     dict_get k' (keys (fst (put now k v s))) = dict_get k' (keys s)).
Proof.
  intros Hdue (H1 & H2 & H3).
  unfold put, bind, consider_compaction, emit. rewrite Hdue.
  unfold write_entry, bind, lift. rewrite struct_pack_ok by assumption.
  unfold append_record, index_update, ret.
  cbn [fst snd disk keys data_size deleted_size trace log_bytes].
  split; [reflexivity|]. split; [|split].
  - unfold encode_rec. cbn [rec_ts rec_key rec_value fst snd].
    now rewrite <- !app_assoc.
  - now rewrite dict_get_set_same.
  - intros k' Hk. now apply dict_get_set_other.
Qed.

Lemma put_appends_witness :
  log_bytes (fst (put 6 "b" "2" (run_ops [Put 5 "a" "1"] fresh))) =
  log_bytes (run_ops [Put 5 "a" "1"] fresh) ++ encode_rec (6, "b", "2").
Proof.
  refine (proj1 (proj2 (put_appends 6 "b" "2" (run_ops [Put 5 "a" "1"] fresh)
                                    _ _))).
  - reflexivity.
  - repeat split; reflexivity.
Defined.

(** ** Batches *)

Lemma last_value_app (k : str) (a b : list record) :
  last_value k (a ++ b) =
  match last_value k b with
  | Some v => Some v
  | None => last_value k a
  end.
Proof.
  induction a as [|r a IH]; cbn [app last_value].
  - now destruct (last_value k b).
  - rewrite IH. now destruct (last_value k b).
Qed.

Lemma batch_loop_ok (items : list (str * str)) :
  forall (clock : nat -> N) (i : nat) (recs : list record) (s : store),
    Rep recs s -> Forall wf_rec (batch_records clock i items) ->
    exists s',
      batch_loop clock i items s = (s', Ret tt) /\
      Rep (recs ++ batch_records clock i items) s'.
Proof.
  induction items as [|[k v] items IH]; intros clock i recs s HR Hw.
  - exists s. cbn. rewrite app_nil_r. auto.
  - cbn [batch_records] in Hw. inversion Hw as [|? ? Hr Hw']; subst.
    cbn [batch_loop batch_records]. unfold bind.
    destruct (write_entry_Rep _ _ _ _ _ HR Hr) as (s1 & Hwr & HR1 & _).
    rewrite Hwr.
    destruct (IH clock (S i) _ s1 HR1 Hw') as (s' & Hb & HR').
    exists s'. split; [assumption|].
    now rewrite <- app_assoc in HR'.
Qed.

Lemma batch_loop_stops (pre : list (str * str)) :
  forall (clock : nat -> N) (i : nat) (recs : list record) (s : store)
         (k v : str) (post : list (str * str)),
    Rep recs s -> Forall wf_rec (batch_records clock i pre) ->
    ~ fits (clock (i + List.length pre)%nat) k v ->
    exists s',
      batch_loop clock i (pre ++ (k, v) :: post) s = (s', Raise StructError) /\
      Rep (recs ++ batch_records clock i pre) s'.
Proof.
  induction pre as [|[k0 v0] pre IH]; intros clock i recs s k v post HR Hw Hn.
  - exists s. cbn [app batch_loop batch_records List.length] in *.
    rewrite Nat.add_0_r in Hn. unfold bind.
    rewrite write_entry_raises by now apply not_fits_raises.
    rewrite app_nil_r. auto.
  - cbn [batch_records] in Hw. inversion Hw as [|? ? Hr Hw']; subst.
    cbn [app batch_loop batch_records List.length] in *. unfold bind.
    destruct (write_entry_Rep _ _ _ _ _ HR Hr) as (s1 & Hwr & HR1 & _).
    rewrite Hwr. rewrite Nat.add_succ_r in Hn.
    destruct (IH clock (S i) _ s1 k v post HR1 Hw' Hn) as (s' & Hb & HR').
    exists s'. split; [assumption|].
    now rewrite <- app_assoc in HR'.
Qed.

Lemma batch_put_prefix (clock : nat -> N) (items : list (str * str))
    (recs : list record) (s : store) :
  Rep recs s ->
  exists r1 s2,
    Rep r1 s2 /\ view_eq r1 recs /\
    batch_put clock items s =
      (let '(s3, r) := batch_loop clock 0 items s2 in
       match r with Ret _ => (s3, Ret true) | Raise e => (s3, Raise e) end).
Proof.
  intros HR.
  destruct (consider_compaction_Rep _ _ HR) as (r1 & s1 & Hc & HR1 & Hv1 & _).
  destruct (open_append_Rep _ _ HR1) as (HR2 & Ho & _).
  exists r1, (fst (open_append s1)). split; [assumption|]. split; [assumption|].
  unfold batch_put, bind. rewrite Hc.
  destruct (open_append s1) as [s2 ro]. cbn [fst snd] in *. subst ro.
  now destruct (batch_loop clock 0 items s2) as [s3 [[]|e]].
Qed.

(** X12.  A batch whose records all fit the header is stored as a whole:
    [batch_put] returns [True], a key of the batch has the value of its last
    pair and every other key the value it had. *)
Theorem batch_put_stores (clock : nat -> N) (items : list (str * str))
    (s : store) :
  consistent s -> Forall wf_rec (batch_records clock 0 items) ->
  snd (batch_put clock items s) = Ret true /\
  forall k,
    stored_value k (fst (batch_put clock items s)) =
    match last_value k (batch_records clock 0 items) with
    | Some v => Some v
    | None => stored_value k s
    end.
Proof.
  intros [recs HR] Hw.
  destruct (batch_put_prefix clock items recs s HR)
    as (r1 & s2 & HR2 & Hv & ->).
  destruct (batch_loop_ok items clock 0%nat r1 s2 HR2 Hw) as (s3 & Hb & HR3).
  rewrite Hb. cbn [fst snd]. split; [reflexivity|]. intros k.
  rewrite (stored_value_Rep _ _ k HR3), (stored_value_Rep _ _ k HR).
  now rewrite last_value_app, (view_eq_value _ _ k Hv).
Qed.

Lemma batch_put_stores_witness :
  stored_value "a"
    (fst (batch_put (fun _ => 9) [("a", "3"); ("c", "4")]
                    (run_ops [Put 5 "a" "1"; Put 6 "b" "2"] fresh))) =
  Some "3".
Proof.
  refine (proj2 (batch_put_stores (fun _ => 9) [("a", "3"); ("c", "4")]
                   (run_ops [Put 5 "a" "1"; Put 6 "b" "2"] fresh) _ _) "a").
  - apply run_ops_consistent; [apply fresh_consistent | repeat constructor].
  - repeat constructor.
Defined.

(** X13.  A batch is not atomic.  When the header of one pair cannot be packed,
    [batch_put] raises [struct.error] there, and the pairs before it stay
    written: they are in the file and the index, and reads return them. *)
Theorem batch_put_not_atomic (clock : nat -> N) (pre post : list (str * str))
    (k v : str) (s : store) :
  consistent s -> Forall wf_rec (batch_records clock 0 pre) ->
  ~ fits (clock (List.length pre)) k v ->
  snd (batch_put clock (pre ++ (k, v) :: post) s) = Raise StructError /\
  consistent (fst (batch_put clock (pre ++ (k, v) :: post) s)) /\
  forall k',
    stored_value k' (fst (batch_put clock (pre ++ (k, v) :: post) s)) =
    match last_value k' (batch_records clock 0 pre) with
    | Some v' => Some v'
    | None => stored_value k' s
    end.
Proof.
  intros [recs HR] Hw Hn.
  destruct (batch_put_prefix clock (pre ++ (k, v) :: post) recs s HR)
    as (r1 & s2 & HR2 & Hv & ->).
  destruct (batch_loop_stops pre clock 0%nat r1 s2 k v post HR2 Hw Hn)
    as (s3 & Hb & HR3).
  rewrite Hb. cbn [fst snd]. split; [reflexivity|].
  split; [exists (r1 ++ batch_records clock 0 pre); exact HR3|]. intros k'.
  rewrite (stored_value_Rep _ _ k' HR3), (stored_value_Rep _ _ k' HR).
  now rewrite last_value_app, (view_eq_value _ _ k' Hv).
Qed.

Lemma batch_put_not_atomic_witness :
  stored_value "a"
    (fst (batch_put (fun i => match i with 1%nat => 2 ^ 64 | _ => 9 end)
                    ([("a", "1")] ++ ("b", "2") :: [("c", "3")]) fresh)) =
  Some "1".
Proof.
  refine (proj2 (proj2 (batch_put_not_atomic
            (fun i => match i with 1%nat => 2 ^ 64 | _ => 9 end)
            [("a", "1")] [("c", "3")] "b" "2" fresh _ _ _)) "a").
  - apply fresh_consistent.
  - repeat constructor.
  - intros [H _]. revert H. apply N.lt_irrefl.
Defined.

(** * Further properties of the request handler *)

Lemma read_state (k : str) (s : store) : fst (read k s) = s.
Proof.
  unfold read. destruct (dict_get k (keys s)) as [[[pos size] ts]|]; [|reflexivity].
  destruct (disk s) as [data|]; [|reflexivity].
  destruct (read_value data pos) as [v|e]; [|reflexivity].
  now destruct (String.eqb v "DELETED").
Qed.

Lemma read_key_range_state (start_key end_key : str) (s : store) :
  fst (read_key_range start_key end_key s) = s.
Proof.
  unfold read_key_range.
  destruct (select_range _ _ _ _); [|reflexivity].
  now destruct (disk s).
Qed.



Lemma handle_DELETE (json_dumps : list (str * str) -> str) (exn_text : exn -> str)
    (now : N) (received k : str) (s : store) :
  strip received = ("DELETE " ++ k)%string ->
  handle json_dumps exn_text now received s =
  match delete now k s with
  | (s', Ret true) => (s', mkReply ("OK" ++ nl)%string false)
  | (s', Ret false) => (s', mkReply ("ERROR Key not found" ++ nl)%string false)
  | (s', Raise e) => (s', mkReply ("ERROR " ++ exn_text e ++ nl)%string false)
  end.
Proof.
  intros H. unfold handle. rewrite H.
  change (String.eqb ("DELETE " ++ k) "SHUTDOWN")%string with false.
  cbv iota.
  change (split_once ("DELETE " ++ k)%string) with ["DELETE"; k].
  unfold dispatch. cbn [String.eqb Ascii.eqb Bool.eqb]. cbv iota.
  unfold bind, lift, first_arg, ret.
  destruct (delete now k s) as [s' [[|]|e]]; reflexivity.
Qed.

(** X14.  Only PUT and DELETE requests write: a request whose first word is
    neither leaves the file, the index and the counters as they were,
    whatever it is answered. *)
Theorem handle_writes_only_on_put_delete
    (json_dumps : list (str * str) -> str) (exn_text : exn -> str)
    (now : N) (received : str) (s : store) :
  hd "" (split_once (strip received)) <> "PUT" ->
  hd "" (split_once (strip received)) <> "DELETE" ->
  fst (handle json_dumps exn_text now received s) = s.
Proof.
  intros Hp Hd. unfold handle.
  destruct (String.eqb (strip received) "SHUTDOWN"); [reflexivity|].
  destruct (split_once (strip received)) as [|command args]; [reflexivity|].
  cbn [hd] in *. unfold dispatch, bind, lift, ret.
  destruct (String.eqb_spec command "PUT"); [contradiction|].
  destruct (String.eqb command "READ").
  { destruct (first_arg args) as [a|e]; [|reflexivity].
    pose proof (read_state a s) as Hr.
    now destruct (read a s) as [s' [[v|]|e]]. }
  destruct (String.eqb_spec command "DELETE"); [contradiction|].
  destruct (String.eqb command "READRANGE").
  { destruct (first_arg args) as [a|e]; [|reflexivity].
    destruct (unpack2 (split_once a)) as [se|e]; [|reflexivity].
    pose proof (read_key_range_state (fst se) (snd se) s) as Hr.
    now destruct (read_key_range (fst se) (snd se) s) as [s' [l|e]]. }
  now destruct (String.eqb command "BATCHPUT").
Qed.

Lemma handle_writes_only_on_put_delete_witness :
  fst (handle (fun _ => "") (fun _ => "") 9 "BATCHPUT {}"
              (run_ops [Put 5 "a" "1"] fresh)) =
  run_ops [Put 5 "a" "1"] fresh.
Proof.
  apply handle_writes_only_on_put_delete; discriminate.
Defined.

(** X15.  The handler asks the server to stop for the request SHUTDOWN and for no
    other, whether the request succeeds, fails or is not understood. *)
Theorem shutdown_only_stops
    (json_dumps : list (str * str) -> str) (exn_text : exn -> str)
    (now : N) (received : str) (s : store) :
  stop (snd (handle json_dumps exn_text now received s)) =
  String.eqb (strip received) "SHUTDOWN".
Proof.
  unfold handle.
  destruct (String.eqb (strip received) "SHUTDOWN"); [reflexivity|].
  destruct (split_once (strip received)) as [|command args]; [reflexivity|].
  now destruct (dispatch json_dumps now command args s) as [s' [r|e]].
Qed.

(** X16.  A command word without its argument is answered with the text of the
    [IndexError] that [args[0]] raises, and the store is not touched. *)
Theorem handle_missing_argument
    (json_dumps : list (str * str) -> str) (exn_text : exn -> str)
    (now : N) (received command : str) (s : store) :
  In command ["PUT"; "READ"; "DELETE"; "READRANGE"] ->
  strip received = command ->
  handle json_dumps exn_text now received s =
  (s, mkReply ("ERROR " ++ exn_text IndexError ++ nl)%string false).
Proof.
  intros Hin H. unfold handle. rewrite H. cbn [In] in Hin.
  destruct Hin as [<-|[<-|[<-|[<-|[]]]]]; reflexivity.
Qed.

Lemma handle_missing_argument_witness :
  handle (fun _ => "") (fun _ => "index") 9 "DELETE" fresh =
  (fresh, mkReply ("ERROR index" ++ nl)%string false).
Proof.
  apply (handle_missing_argument (fun _ => "") (fun _ => "index") 9
                                 "DELETE" "DELETE" fresh).
  - cbn. tauto.
  - reflexivity.
Defined.

(** X17.  PUT and READRANGE take two words.  With one word only, the unpacking
    [key, value = args[0].split(' ', 1)] raises [ValueError]; the reply is
    its text and nothing is written or read. *)
Theorem handle_missing_second_word
    (json_dumps : list (str * str) -> str) (exn_text : exn -> str)
    (now : N) (received command a : str) (s : store) :
  In command ["PUT"; "READRANGE"] ->
  cut_at_space a = None ->
  strip received = (command ++ " " ++ a)%string ->
  handle json_dumps exn_text now received s =
  (s, mkReply ("ERROR " ++ exn_text ValueError ++ nl)%string false).
Proof.
  intros Hin Ha H. unfold handle. cbn [In] in Hin.
  destruct Hin as [<-|[<-|[]]].
  - change (strip received = ("PUT " ++ a)%string) in H. rewrite H.
    change (String.eqb ("PUT " ++ a) "SHUTDOWN")%string with false. cbv iota.
    change (split_once ("PUT " ++ a)%string) with ["PUT"; a].
    unfold dispatch. cbn [String.eqb Ascii.eqb Bool.eqb]. cbv iota.
    unfold bind, lift, first_arg, split_once. now rewrite Ha.
  - change (strip received = ("READRANGE " ++ a)%string) in H. rewrite H.
    change (String.eqb ("READRANGE " ++ a) "SHUTDOWN")%string with false.
    cbv iota.
    change (split_once ("READRANGE " ++ a)%string) with ["READRANGE"; a].
    unfold dispatch. cbn [String.eqb Ascii.eqb Bool.eqb]. cbv iota.
    unfold bind, lift, first_arg, split_once. now rewrite Ha.
Qed.

Lemma handle_missing_second_word_witness :
  handle (fun _ => "") (fun _ => "unpack") 9 "PUT a" fresh =
  (fresh, mkReply ("ERROR unpack" ++ nl)%string false).
Proof.
  apply (handle_missing_second_word (fun _ => "") (fun _ => "unpack") 9
                                    "PUT a" "PUT" "a" fresh).
  - cbn. tauto.
  - reflexivity.
  - reflexivity.
Defined.

(** X18.  The reply to DELETE depends on the index only, not on whether the key
    is live: OK when the key is in the index, also when its last record is
    already a tombstone, and "Key not found" when it is not; in the second
    case nothing is written. *)
Theorem delete_reply
    (json_dumps : list (str * str) -> str) (exn_text : exn -> str)
    (now : N) (received k : str) (s : store) :
  consistent s -> now < 2 ^ 64 ->
  strip received = ("DELETE " ++ k)%string ->
  sent (snd (handle json_dumps exn_text now received s)) =
    (if dict_mem k (keys s) then ("OK" ++ nl)%string
     else ("ERROR Key not found" ++ nl)%string) /\
  (dict_mem k (keys s) = false ->
   fst (handle json_dumps exn_text now received s) = s).
Proof.
  intros [recs HR] Hn H. rewrite (handle_DELETE _ _ _ _ k) by assumption.
  destruct (dict_mem k (keys s)) eqn:Hm.
  - destruct (delete_present recs now k s HR Hm Hn) as (r1 & s1 & -> & _).
    split; [reflexivity | discriminate].
  - rewrite delete_absent by assumption. split; reflexivity.
Qed.

Lemma delete_reply_witness :
  sent (snd (handle (fun _ => "") (fun _ => "") 7 "DELETE a"
                    (run_ops [Put 5 "a" "1"; Delete 6 "a"] fresh))) =
  ("OK" ++ nl)%string.
Proof.
  refine (proj1 (delete_reply (fun _ => "") (fun _ => "") 7 "DELETE a" "a"
                   (run_ops [Put 5 "a" "1"; Delete 6 "a"] fresh) _ _ _)).
  - apply run_ops_consistent; [apply fresh_consistent | repeat constructor].
  - reflexivity.
  - reflexivity.
Defined.



(** * Further properties of range reads *)

Lemma str_leb_refl (k : str) : String.leb k k = true.
Proof. now destruct (String.leb_total k k). Qed.

Lemma range_result_absent (k : str) (s : store) (l : list str) :
  ~ In k l -> range_result k k s l = [].
Proof.
  unfold range_result. induction l as [|x l IH]; intros Hn; [reflexivity|].
  cbn [flat_map]. rewrite IH by (intros H; apply Hn; now right).
  destruct (String.leb k x) eqn:E1; [|reflexivity].
  destruct (String.leb x k) eqn:E2; [|reflexivity].
  exfalso. apply Hn. left. now apply String.leb_antisym.
Qed.

Lemma range_result_point (k : str) (s : store) (l : list str) :
  NoDup l -> In k l ->
  range_result k k s l =
  match visible (stored_value k s) with
  | Some v => [(k, v)]
  | None => []
  end.
Proof.
  induction l as [|x l IH]; intros Hnd Hin; [contradiction|].
  inversion Hnd as [|? ? Hnot Hnd']; subst.
  change (range_result k k s (x :: l))
    with ((if String.leb k x && String.leb x k then
             match visible (stored_value x s) with
             | Some v => [(x, v)]
             | None => []
             end
           else []) ++ range_result k k s l).
  destruct (String.eqb_spec x k) as [->|Hx].
  - rewrite str_leb_refl, (range_result_absent k s l Hnot), app_nil_r.
    reflexivity.
  - destruct Hin as [H|H]; [contradiction|]. rewrite (IH Hnd' H).
    destruct (String.leb k x) eqn:E1; [|reflexivity].
    destruct (String.leb x k) eqn:E2; [|reflexivity].
    exfalso. apply Hx. now apply String.leb_antisym.
Qed.

(** X20.  A range read whose two bounds are the same key agrees with [read]: it
    returns the one pair of the key when [read] returns a value, and the
    empty list when [read] returns [None]. *)
Theorem range_point_query (k : str) (s : store) :
  consistent s -> disk s <> None ->
  exists r,
    read k s = (s, Ret r) /\
    read_key_range k k s =
      (s, Ret (match r with Some v => [(k, v)] | None => [] end)).
Proof.
  intros [recs HR] Hd. pose proof (Rep_Indexed _ _ HR) as HI.
  exists (visible (last_value k recs)). split; [now apply read_Rep|].
  rewrite (read_key_range_Indexed recs) by assumption.
  rewrite <- (stored_value_Rep recs s k HR). do 2 f_equal.
  destruct (dict_get k (keys s)) as [e|] eqn:Hg.
  - apply range_result_point.
    + apply sorted_NoDup. now apply (Rep_NoDup recs).
    + apply sorted_In. apply dict_get_In in Hg.
      now apply (in_map fst) in Hg.
  - rewrite range_result_absent.
    + unfold stored_value. now rewrite Hg.
    + rewrite sorted_In. now apply dict_get_None_keys.
Qed.

Lemma range_point_query_witness :
  exists r,
    read "b" (run_ops [Put 5 "a" "1"; Put 6 "b" "2"; Put 7 "c" "3"] fresh) =
      (run_ops [Put 5 "a" "1"; Put 6 "b" "2"; Put 7 "c" "3"] fresh, Ret r) /\
    read_key_range "b" "b"
      (run_ops [Put 5 "a" "1"; Put 6 "b" "2"; Put 7 "c" "3"] fresh) =
      (run_ops [Put 5 "a" "1"; Put 6 "b" "2"; Put 7 "c" "3"] fresh,
       Ret (match r with Some v => [("b", v)] | None => [] end)).
Proof.
  apply range_point_query.
  - apply run_ops_consistent; [apply fresh_consistent | repeat constructor].
  - discriminate.
Defined.

(** X21.  A range whose end key sorts before its start key selects nothing: the
    read returns the empty list and raises no error. *)
Theorem range_reversed_bounds (start_key end_key : str) (s : store) :
  consistent s -> disk s <> None ->
  String.ltb end_key start_key = true ->
  read_key_range start_key end_key s = (s, Ret []).
Proof.
  intros [recs HR] Hd Hlt. pose proof (Rep_Indexed _ _ HR) as HI.
  rewrite (read_key_range_Indexed recs) by assumption. do 2 f_equal.
  assert (Hno : String.leb start_key end_key = false).
  { unfold String.ltb in Hlt. unfold String.leb.
    rewrite String.compare_antisym.
    now destruct (String.compare end_key start_key). }
  unfold range_result.
  induction (sorted (dict_keys (keys s))) as [|x l IH]; [reflexivity|].
  cbn [flat_map]. rewrite IH.
  destruct (String.leb start_key x) eqn:E1; [|reflexivity].
  destruct (String.leb x end_key) eqn:E2; [|reflexivity].
  rewrite (leb_trans _ _ _ E1 E2) in Hno. discriminate.
Qed.

Lemma range_reversed_bounds_witness :
  read_key_range "c" "a" (run_ops [Put 5 "a" "1"; Put 6 "b" "2"] fresh) =
  (run_ops [Put 5 "a" "1"; Put 6 "b" "2"] fresh, Ret []).
Proof.
  apply range_reversed_bounds.
  - apply run_ops_consistent; [apply fresh_consistent | repeat constructor].
  - discriminate.
  - reflexivity.
Defined.
